(** * Gradient-descent notebook: a shallow embedding

    The notebook [07_stochastic_gradient_descent.ipynb] fits a line
    [y = w0 + w1 * x] by least squares with four update rules (batch,
    stochastic, momentum, RMSprop).  This file embeds its numeric cells:

    - the arithmetic of numpy scalars is an interface [Num], instantiated
      with the real numbers (exact arithmetic, for the analytic facts) and
      with binary64 primitive floats (what CPython and numpy compute with);
    - one-dimensional arrays are lists, with numpy's broadcasting rule for
      element-wise operations and its [ValueError] on incompatible shapes;
    - the parameter array [w] is a heap object that [w -= ...] updates in
      place and that [w.copy()] duplicates; trajectories are Python lists
      of references to such objects;
    - the process-wide random generator is a state threaded through the
      cells. *)

From Stdlib Require Import List Arith ZArith QArith Lia Permutation.
From Stdlib Require Import Reals Lra.
From Stdlib Require PrimFloat Uint63.
Import ListNotations.

Close Scope Q_scope.
Close Scope R_scope.

(** ** Scalar arithmetic *)

Declare Scope num_scope.
Delimit Scope num_scope with num.

(** The operations the notebook applies to floating-point scalars.  [lit]
    reads a decimal literal of the source ([0.01], [1e-8], [2.]). *)
Class Num (A : Type) := {
  lit : Q -> A;
  add : A -> A -> A;
  sub : A -> A -> A;
  mul : A -> A -> A;
  div : A -> A -> A;
  neg : A -> A;
  root : A -> A
}.

Infix "+" := add : num_scope.
Infix "-" := sub : num_scope.
Infix "*" := mul : num_scope.
Infix "/" := div : num_scope.
Notation "- x" := (neg x) : num_scope.

(** Exact arithmetic on the reals. *)
#[export] Instance Num_R : Num R := {
  lit q := (IZR (Qnum q) / IZR (Zpos (Qden q)))%R;
  add := Rplus;
  sub := Rminus;
  mul := Rmult;
  div := Rdiv;
  neg := Ropp;
  root := R_sqrt.sqrt
}.

(** Binary64.  An integer below 2^53 converts exactly and IEEE division
    rounds to nearest, so [float_of_Q] of a short decimal is the double
    that Python reads for the same literal. *)
Definition float_of_Z (z : Z) : PrimFloat.float :=
  match z with
  | Z0 => PrimFloat.zero
  | Zpos _ => PrimFloat.of_uint63 (Uint63.of_Z z)
  | Zneg p => PrimFloat.opp (PrimFloat.of_uint63 (Uint63.of_Z (Zpos p)))
  end.

Definition float_of_Q (q : Q) : PrimFloat.float :=
  PrimFloat.div (float_of_Z (Qnum q)) (float_of_Z (Zpos (Qden q))).

#[export] Instance Num_float : Num PrimFloat.float := {
  lit := float_of_Q;
  add := PrimFloat.add;
  sub := PrimFloat.sub;
  mul := PrimFloat.mul;
  div := PrimFloat.div;
  neg := PrimFloat.opp;
  root := PrimFloat.sqrt
}.

(** ** Exceptions *)

Inductive exn : Type :=
| ValueError   (* operands could not be broadcast together *)
| IndexError.  (* index out of bounds *)

Inductive result (T : Type) : Type :=
| Ok (t : T)
| Raise (e : exn).

Arguments Ok {T} t.
Arguments Raise {T} e.

Definition rbind {T U : Type} (r : result T) (k : T -> result U) : result U :=
  match r with
  | Ok t => k t
  | Raise e => Raise e
  end.

Declare Scope result_scope.
Delimit Scope result_scope with result.
Notation "x <- r ;; k" := (rbind r (fun x => k))
  (at level 61, r at next level, right associativity) : result_scope.

(** ** Arrays *)

Section Arrays.
Context {A : Type} `{Num A}.
Local Open Scope num_scope.

(** A two-element array such as [w], a gradient or an accumulator. *)
Definition vec : Type := (A * A)%type.

(** [eta * g]: scalar times array. *)
Definition vscale (c : A) (v : vec) : vec := (c * fst v, c * snd v).
(** Element-wise operations on two arrays of shape (2,). *)
Definition vadd (u v : vec) : vec := (fst u + fst v, snd u + snd v).
Definition vsub (u v : vec) : vec := (fst u - fst v, snd u - snd v).
Definition vdiv (u v : vec) : vec := (fst u / fst v, snd u / snd v).
(** [g ** 2] and [np.sqrt(g2)]. *)
Definition vsquare (v : vec) : vec := (fst v * fst v, snd v * snd v).
Definition np_sqrt (v : vec) : vec := (root (fst v), root (snd v)).
(** [v + c]: array plus scalar. *)
Definition vadd_scalar (v : vec) (c : A) : vec := (fst v + c, snd v + c).

(** Element-wise pairing of two lists of equal length. *)
Fixpoint zip_with (op : A -> A -> A) (a b : list A) : list A :=
  match a, b with
  | ai :: a', bi :: b' => op ai bi :: zip_with op a' b'
  | _, _ => []
  end.

(** numpy's rule for a binary operation on arrays of shapes (n,) and
    (m,): equal lengths pair up, a length-one operand is stretched, and
    anything else raises [ValueError]. *)
Definition broadcast (op : A -> A -> A) (a b : list A) : result (list A) :=
  if Nat.eqb (length a) (length b) then Ok (zip_with op a b)
  else match a, b with
       | [a0], _ => Ok (map (op a0) b)
       | _, [b0] => Ok (map (fun ai => op ai b0) a)
       | _, _ => Raise ValueError
       end.

(** Python's built-in [sum]: starts from 0 and adds left to right. *)
Definition pysum (l : list A) : A := fold_left add l (lit 0).

(** [x[j]] for a natural index. *)
Definition getitem (x : list A) (j : nat) : result A :=
  match nth_error x j with
  | Some v => Ok v
  | None => Raise IndexError
  end.

(** ** The cost function and its gradient *)

Local Open Scope result_scope.

(** [y - w[0] - w[1]*x] *)
Definition residual (w : vec) (x y : list A) : result (list A) :=
  broadcast sub (map (fun yi => yi - fst w) y) (map (fun xi => snd w * xi) x).

(** [def L(w,x,y): return 1./2.*sum((y - w[0] - w[1]*x)**2)] *)
Definition L (w : vec) (x y : list A) : result A :=
  r <- residual w x y ;;
  Ok ((lit 1 / lit 2) * pysum (map (fun ri => ri * ri) r)).

(** [def G(w,x,y):
       return np.array([-sum(y - w[0] - w[1]*x),
                        -sum((y - w[0] - w[1]*x)*x)])] *)
Definition G (w : vec) (x y : list A) : result vec :=
  r0 <- residual w x y ;;
  r1 <- residual w x y ;;
  rx <- broadcast mul r1 x ;;
  Ok (- pysum r0, - pysum rx).

(** The gradient at a single data point, [G(w, [xj], [yj])], unfolded. *)
Definition G1 (w : vec) (xj yj : A) : vec :=
  (- (lit 0 + (yj - fst w - snd w * xj)),
   - (lit 0 + (yj - fst w - snd w * xj) * xj)).

End Arrays.

Arguments vec A : clear implicits.

(** ** The random generator

    [choice g n] is [np.random.choice(range(n), n, replace=False)] and
    [randn g n] is [np.random.randn(n)], each returning the generator's
    next state. *)
Class Rng (A Gen : Type) := {
  choice : Gen -> nat -> list nat * Gen;
  randn : Gen -> nat -> list A * Gen
}.

(** What numpy documents for these two calls: sampling [n] of [n] indices
    without replacement visits every index once, and [randn n] has [n]
    entries. *)
Class RngSpec {A Gen : Type} (rng : Rng A Gen) : Prop := {
  choice_perm : forall g n, Permutation (fst (choice g n)) (seq 0 n);
  randn_length : forall g n, length (fst (randn g n)) = n
}.

(** ** Heap, generator state and the monad of a notebook cell *)

Definition loc : Type := nat.

Section Machine.
Context {A Gen : Type} `{Num A} `{Rng A Gen}.

(** Array objects live in [heap]; [next] is the first unused address. *)
Record state : Type := mkState {
  heap : loc -> vec A;
  next : loc;
  gen : Gen
}.

Definition M (T : Type) : Type := state -> result (T * state).

Definition ret {T : Type} (t : T) : M T := fun st => Ok (t, st).

Definition bind {T U : Type} (m : M T) (k : T -> M U) : M U :=
  fun st => match m st with
            | Ok (t, st') => k t st'
            | Raise e => Raise e
            end.

Definition lift {T : Type} (r : result T) : M T :=
  fun st => match r with
            | Ok t => Ok (t, st)
            | Raise e => Raise e
            end.

Definition store (h : loc -> vec A) (l : loc) (v : vec A) : loc -> vec A :=
  fun l' => if Nat.eqb l' l then v else h l'.

(** [np.array([a, b])]: a new array object. *)
Definition np_array (v : vec A) : M loc :=
  fun st => Ok (next st, mkState (store (heap st) (next st) v) (S (next st)) (gen st)).

(** Reading the elements of an array object. *)
Definition load (l : loc) : M (vec A) :=
  fun st => Ok (heap st l, st).

(** [w.copy()] *)
Definition copy (l : loc) : M loc :=
  bind (load l) np_array.

(** [w -= d]: in-place subtraction, the object keeps its identity. *)
Definition isub (l : loc) (d : vec A) : M unit :=
  fun st => Ok (tt, mkState (store (heap st) l (vsub (heap st l) d)) (next st) (gen st)).

(** [np.array(ws)] for a list [ws] of array objects: the rows are read
    at the time of the call. *)
Definition np_stack (ws : list loc) : M (list (vec A)) :=
  fun st => Ok (map (heap st) ws, st).

(** [np.random.choice(range(n), n, replace=False)] *)
Definition random_choice (n : nat) : M (list nat) :=
  fun st => let (p, g) := choice (gen st) n in
            Ok (p, mkState (heap st) (next st) g).

(** [np.random.randn(n)] *)
Definition random_randn (n : nat) : M (list A) :=
  fun st => let (z, g) := randn (gen st) n in
            Ok (z, mkState (heap st) (next st) g).

(** [for i in items: body], threading the variables the body rebinds. *)
Fixpoint for_ {I S : Type} (items : list I) (body : I -> S -> M S) (s : S) : M S :=
  match items with
  | [] => ret s
  | i :: rest => bind (body i s) (for_ rest body)
  end.

End Machine.

Arguments state A Gen : clear implicits.
Arguments M A Gen T : clear implicits.

Declare Scope cell_scope.
Delimit Scope cell_scope with cell.
Notation "x <- m ;; k" := (bind m (fun x => k))
  (at level 61, m at next level, right associativity) : cell_scope.
Notation "' p <- m ;; k" := (bind m (fun x => match x with p => k end))
  (at level 61, p pattern, m at next level, right associativity) : cell_scope.
Notation "m ;; k" := (bind m (fun _ => k))
  (at level 61, right associativity) : cell_scope.

(** ** The cells of the notebook *)

Section Cells.
Context {A Gen : Type} `{Num A} `{Rng A Gen}.
Local Open Scope num_scope.
Local Open Scope cell_scope.

Definition lit_nat (n : nat) : A := lit (inject_Z (Z.of_nat n)).

(** [np.linspace(start, stop, num)] with the default [endpoint=True] and
    a step that is not zero: [arange(num) * step + start] with
    [step = (stop - start) / (num - 1)], the last entry then overwritten
    with [stop].  A single point has no step and is
    [0 * (stop - start) + start]. *)
Definition np_linspace (start stop : A) (num : nat) : list A :=
  match num with
  | 0 => []
  | 1 => [lit_nat 0 * (stop - start) + start]
  | S n =>
      let step := (stop - start) / lit_nat n in
      map (fun i => lit_nat i * step + start) (seq 0 n) ++ [stop]
  end.

(** [x = np.linspace(0,1,21)]
    [y = x + np.random.randn(len(x))*0.1 + 1.0] *)
Definition make_dataset : M A Gen (list A * list A) :=
  let x := np_linspace (lit 0) (lit 1) 21 in
  noise <- random_randn (length x) ;;
  t <- lift (broadcast add x (map (fun zi => zi * lit 0.1) noise)) ;;
  ret (x, map (fun ti => ti + lit 1.0) t).

(** Batch gradient descent.
    [w_batch = [w.copy()]]
    [for i in range(10000):  w -= eta*G(w,x,y);  w_batch.append(w.copy())]
    [w_batch = np.array(w_batch)] *)
Definition batch_gradient_descent (epochs : nat) (eta : A) (x y : list A)
    (w : loc) : M A Gen (list (vec A)) :=
  c <- copy w ;;
  w_batch <- for_ (seq 0 epochs) (fun _ w_batch =>
      wv <- load w ;;
      g <- lift (G wv x y) ;;
      isub w (vscale eta g) ;;
      c <- copy w ;;
      ret (w_batch ++ [c])) [c] ;;
  np_stack w_batch.

(** Stochastic gradient descent: one data point per step. *)
Definition stochastic_gradient_descent (epochs : nat) (eta : A)
    (x y : list A) (w_init : vec A) : M A Gen (list (vec A) * list (vec A)) :=
  w <- np_array w_init ;;
  c0 <- copy w ;;
  c1 <- copy w ;;
  '(w_stoch, w_epoch) <- for_ (seq 0 epochs) (fun _ '(w_stoch, w_epoch) =>
      random_indices <- random_choice (length x) ;;
      w_stoch <- for_ random_indices (fun j w_stoch =>
          x_sample <- lift (getitem x j) ;;
          y_sample <- lift (getitem y j) ;;
          wv <- load w ;;
          g <- lift (G wv [x_sample] [y_sample]) ;;
          isub w (vscale eta g) ;;
          c <- copy w ;;
          ret (w_stoch ++ [c])) w_stoch ;;
      c <- copy w ;;
      ret (w_stoch, w_epoch ++ [c])) ([c0], [c1]) ;;
  w_stoch <- np_stack w_stoch ;;
  w_epoch <- np_stack w_epoch ;;
  ret (w_stoch, w_epoch).

(** Stochastic gradient descent with momentum.  [delta_w] starts as the
    scalar [0.0], which numpy stretches to both components in the first
    [momentum*delta_w + ...]; the pair of zeros stands for it. *)
Definition momentum_gradient_descent (epochs : nat) (eta momentum : A)
    (x y : list A) (w_init : vec A) : M A Gen (list (vec A) * list (vec A)) :=
  w <- np_array w_init ;;
  c0 <- copy w ;;
  c1 <- copy w ;;
  let delta_w := (lit 0.0, lit 0.0) in
  '(delta_w, w_momen, w_mepoch) <-
    for_ (seq 0 epochs) (fun _ '(delta_w, w_momen, w_mepoch) =>
      random_indices <- random_choice (length x) ;;
      '(delta_w, w_momen) <- for_ random_indices (fun j '(delta_w, w_momen) =>
          x_sample <- lift (getitem x j) ;;
          y_sample <- lift (getitem y j) ;;
          wv <- load w ;;
          g <- lift (G wv [x_sample] [y_sample]) ;;
          let delta_w := vadd (vscale momentum delta_w)
                              (vscale (lit 1 - momentum) g) in
          isub w (vscale eta delta_w) ;;
          c <- copy w ;;
          ret (delta_w, w_momen ++ [c])) (delta_w, w_momen) ;;
      c <- copy w ;;
      ret (delta_w, w_momen, w_mepoch ++ [c])) (delta_w, [c0], [c1]) ;;
  w_momen <- np_stack w_momen ;;
  w_mepoch <- np_stack w_mepoch ;;
  ret (w_momen, w_mepoch).

(** The denominator of the RMSprop step, [np.sqrt(g2) + 1e-8]. *)
Definition rmsprop_denominator (g2 : vec A) : vec A :=
  vadd_scalar (np_sqrt g2) (lit 1e-8).

(** [g2 = momentum*g2 + (1.-momentum)*gradient**2] *)
Definition rmsprop_average (momentum : A) (g2 gradient : vec A) : vec A :=
  vadd (vscale momentum g2) (vscale (lit 1 - momentum) (vsquare gradient)).

(** RMSprop.  [g2] starts as the integer [0], stretched like [delta_w]
    above.  The cell converts [w_momen] to an array and leaves
    [w_mepoch] a list of array objects. *)
Definition rmsprop_gradient_descent (epochs : nat) (eta momentum : A)
    (x y : list A) (w_init : vec A) : M A Gen (list (vec A) * list loc) :=
  w <- np_array w_init ;;
  c0 <- copy w ;;
  c1 <- copy w ;;
  let g2 := (lit 0, lit 0) in
  '(g2, w_momen, w_mepoch) <-
    for_ (seq 0 epochs) (fun _ '(g2, w_momen, w_mepoch) =>
      random_indices <- random_choice (length x) ;;
      '(g2, w_momen) <- for_ random_indices (fun j '(g2, w_momen) =>
          x_sample <- lift (getitem x j) ;;
          y_sample <- lift (getitem y j) ;;
          wv <- load w ;;
          gradient <- lift (G wv [x_sample] [y_sample]) ;;
          let g2 := rmsprop_average momentum g2 gradient in
          isub w (vdiv (vscale eta gradient) (rmsprop_denominator g2)) ;;
          c <- copy w ;;
          ret (g2, w_momen ++ [c])) (g2, w_momen) ;;
      c <- copy w ;;
      ret (g2, w_momen, w_mepoch ++ [c])) (g2, [c0], [c1]) ;;
  w_momen <- np_stack w_momen ;;
  ret (w_momen, w_mepoch).

End Cells.

(** ** A deterministic generator

    A counter: the [g]-th permutation is [range(n)] rotated by [g], and
    the normal draws are replaced by the integers that follow the counter.
    It gives the cells something to run on. *)
Section CounterRng.
Context {A : Type} `{Num A}.

Definition rotate (k : nat) (l : list nat) : list nat :=
  skipn (k mod length l) l ++ firstn (k mod length l) l.

#[export] Instance counter_rng : Rng A nat := {
  choice g n := (rotate g (seq 0 n), S g);
  randn g n := (map (fun i => lit_nat (g + i)) (seq 1 n), g + n)
}.

End CounterRng.

(** ** Update rules and their pure trajectories

    The three per-point cells differ only in the rule that turns the
    accumulator, the current [w] and a data point into the new accumulator
    and the decrement of [w]. *)

(** The successive values of a left fold, without and with the start. *)
Fixpoint trace {S I : Type} (f : S -> I -> S) (s : S) (items : list I) : list S :=
  match items with
  | [] => []
  | i :: rest => f s i :: trace f (f s i) rest
  end.

Definition scan {S I : Type} (f : S -> I -> S) (s : S) (items : list I) : list S :=
  s :: trace f s items.

Section Rules.
Context {A : Type} `{Num A}.
Local Open Scope num_scope.

Definition sgd_rule (eta : A) (_ : unit) (w : vec A) (xj yj : A)
  : unit * vec A :=
  (tt, vscale eta (G1 w xj yj)).

Definition momentum_rule (eta momentum : A) (delta_w : vec A) (w : vec A)
    (xj yj : A) : vec A * vec A :=
  let delta_w := vadd (vscale momentum delta_w)
                      (vscale (lit 1 - momentum) (G1 w xj yj)) in
  (delta_w, vscale eta delta_w).

Definition rmsprop_rule (eta momentum : A) (g2 : vec A) (w : vec A)
    (xj yj : A) : vec A * vec A :=
  let gradient := G1 w xj yj in
  let g2 := rmsprop_average momentum g2 gradient in
  (g2, vdiv (vscale eta gradient) (rmsprop_denominator g2)).

(** One full-batch update of [w]; the gradient of a well-shaped dataset. *)
Definition batch_update (eta : A) (x y : list A) (w : vec A) : result (vec A) :=
  rbind (G w x y) (fun g => Ok (vsub w (vscale eta g))).

Section Trajectory.
Context {S : Type}.
Variable rule : S -> vec A -> A -> A -> S * vec A.
Variables x y : list A.

(** The accumulator and [w] after visiting data point [j]. *)
Definition point_update (acc : S * vec A) (j : nat) : S * vec A :=
  let (s, d) := rule (fst acc) (snd acc) (nth j x (lit 0)) (nth j y (lit 0)) in
  (s, vsub (snd acc) d).

(** The accumulator and [w] after one epoch visiting the points in
    the order [p]. *)
Definition epoch_update (acc : S * vec A) (p : list nat) : S * vec A :=
  fold_left point_update p acc.

(** The values of [w] after every step, over the epochs' index
    orders [perms], and at every epoch boundary. *)
Definition step_values (acc : S * vec A) (perms : list (list nat)) : list (vec A) :=
  map snd (scan point_update acc (concat perms)).

Definition epoch_values (acc : S * vec A) (perms : list (list nat)) : list (vec A) :=
  map snd (scan epoch_update acc perms).
End Trajectory.
End Rules.

(** The index orders of [n] successive epochs over [m] points, and the
    generator they leave behind. *)
Fixpoint draws {A Gen : Type} `{Rng A Gen} (n m : nat) (g : Gen) : list (list nat) :=
  match n with
  | O => []
  | S n' => fst (choice g m) :: draws n' m (snd (choice g m))
  end.

Fixpoint gen_after {A Gen : Type} `{Rng A Gen} (n m : nat) (g : Gen) : Gen :=
  match n with
  | O => g
  | S n' => gen_after n' m (snd (choice g m))
  end.

(** The loops shared by the per-point cells, over an arbitrary rule. *)
Section PerPoint.
Context {A Gen : Type} `{Num A} `{Rng A Gen}.
Context {S : Type}.
Variable rule : S -> vec A -> A -> A -> S * vec A.
Variables x y : list A.
Variable w : loc.
Local Open Scope cell_scope.

Definition point_step (j : nat) (acc : S * list loc) : M A Gen (S * list loc) :=
  x_sample <- lift (getitem x j) ;;
  y_sample <- lift (getitem y j) ;;
  wv <- load w ;;
  isub w (snd (rule (fst acc) wv x_sample y_sample)) ;;
  c <- copy w ;;
  ret (fst (rule (fst acc) wv x_sample y_sample), snd acc ++ [c]).

Definition epoch_step (_ : nat) (acc : S * list loc * list loc)
  : M A Gen (S * list loc * list loc) :=
  random_indices <- random_choice (length x) ;;
  r <- for_ random_indices point_step (fst acc) ;;
  c <- copy w ;;
  ret (r, snd acc ++ [c]).

Definition descent (epochs : nat) (s : S) : M A Gen (S * list loc * list loc) :=
  c0 <- copy w ;;
  c1 <- copy w ;;
  for_ (seq 0 epochs) epoch_step (s, [c0], [c1]).
End PerPoint.

(** ** The loss surface

    The cell that tabulates the cost over a grid of intercepts and slopes
    for the contour plots.  It touches neither the heap of parameter
    arrays nor the generator, and its one two-dimensional array is not
    shared, so the array is the value the loops thread. *)
Section LossGrid.
Context {A : Type} `{Num A}.
Local Open Scope result_scope.

(** [for i in items: body] *)
Fixpoint rfor {I S : Type} (items : list I) (body : I -> S -> result S) (s : S)
  : result S :=
  match items with
  | [] => Ok s
  | i :: rest => s' <- body i s ;; rfor rest body s'
  end.

(** [enumerate(l)] *)
Definition enumerate {T : Type} (l : list T) : list (nat * T) :=
  combine (seq 0 (length l)) l.

(** [np.zeros((rows, cols))] *)
Definition np_zeros (rows cols : nat) : list (list A) :=
  repeat (repeat (lit 0) cols) rows.

Fixpoint set_nth {T : Type} (i : nat) (v : T) (l : list T) : list T :=
  match l, i with
  | [], _ => []
  | _ :: l', O => v :: l'
  | a :: l', S i' => a :: set_nth i' v l'
  end.

(** [g[i, j]] and [g[i, j] = v] for natural indices: [IndexError] outside
    the array. *)
Definition getitem2 (g : list (list A)) (i j : nat) : result A :=
  match nth_error g i with
  | None => Raise IndexError
  | Some row => getitem row j
  end.

Definition setitem2 (g : list (list A)) (i j : nat) (v : A)
  : result (list (list A)) :=
  match nth_error g i with
  | None => Raise IndexError
  | Some row =>
      if Nat.ltb j (length row) then Ok (set_nth i (set_nth j v row) g)
      else Raise IndexError
  end.

(** [L_grid = np.zeros((rows, cols))]
    [for i,w1 in enumerate(w1s):]
    [    for j,w0 in enumerate(w0s):]
    [        L_grid[i,j] = L([w0,w1],x,y)] *)
Definition loss_grid (rows cols : nat) (w0s w1s x y : list A)
  : result (list (list A)) :=
  rfor (enumerate w1s) (fun '(i, w1) L_grid =>
      rfor (enumerate w0s) (fun '(j, w0) L_grid =>
          v <- L (w0, w1) x y ;;
          setitem2 L_grid i j v) L_grid)
    (np_zeros rows cols).

(** A grid of [rows] rows of [cols] entries. *)
Definition dims (g : list (list A)) (rows cols : nat) : Prop :=
  length g = rows /\ Forall (fun row => length row = cols) g.

(** The notebook's grid: 101 intercepts in [0, 1.5] and 101 slopes in
    [0, 1]. *)
Definition L_grid_cell (x y : list A) : result (list (list A)) :=
  loss_grid 101 101 (np_linspace (lit 0) (lit 1.5) 101)
            (np_linspace (lit 0) (lit 1) 101) x y.
End LossGrid.

(** ** The specification's formulas

    Written from the prose, over the reals and by index:
    [g0 = -Σ (y_i - w0 - w1*x_i)], [g1 = -Σ (y_i - w0 - w1*x_i) * x_i] and
    [L(w) = 1/2 * Σ (y_i - w0 - w1*x_i)^2]. *)
Module Spec.
Local Open Scope R_scope.

(** [sigma n f] is [f 0 + ... + f (n-1)]. *)
Fixpoint sigma (n : nat) (f : nat -> R) : R :=
  match n with
  | O => 0
  | S k => sigma k f + f k
  end.

Definition residual_at (w : vec R) (xs ys : list R) (i : nat) : R :=
  nth i ys 0 - fst w - snd w * nth i xs 0.

Definition gradient (w : vec R) (xs ys : list R) : vec R :=
  (- sigma (length xs) (residual_at w xs ys),
   - sigma (length xs) (fun i => residual_at w xs ys i * nth i xs 0)).

Definition loss (w : vec R) (xs ys : list R) : R :=
  1 / 2 * sigma (length xs) (fun i => (residual_at w xs ys i) ^ 2).
End Spec.

(** Agreement of two parameter vectors up to [tol] in each component. *)
Definition close_to (tol : R) (u v : vec R) : Prop :=
  (- tol <= fst u - fst v <= tol)%R /\ (- tol <= snd u - snd v <= tol)%R.

Definition float_close_to (tol : PrimFloat.float) (u v : vec PrimFloat.float) : bool :=
  PrimFloat.leb (PrimFloat.abs (PrimFloat.sub (fst u) (fst v))) tol
  && PrimFloat.leb (PrimFloat.abs (PrimFloat.sub (snd u) (snd v))) tol.

(** The shapes that numpy accepts in [G] and [L]. *)
Definition compatible {A : Type} (x y : list A) : Prop :=
  length x = length y \/ length x = 1 \/ length y = 1.

(** A chain of successful updates: each value is the update of the one
    before it. *)
Fixpoint follows {T : Type} (f : T -> result T) (a : T) (l : list T) : Prop :=
  match l with
  | [] => True
  | b :: l' => f a = Ok b /\ follows f b l'
  end.

(** The trajectory lists of a cell hold copies: every recorded address is
    allocated, differs from the address of [w], and stores the recorded
    value. *)
Definition snapshots {A Gen : Type} (st : state A Gen) (w : loc)
    (ls : list loc) (vs : list (vec A)) : Prop :=
  Forall (fun l => l < next st /\ l <> w) ls /\ map (heap st) ls = vs.

(** The example dataset of the end-to-end scenario and the notebook's
    settings. *)
Section Scenario.
Context {A : Type} `{Num A}.

Definition scenario_x : list A := [lit 0; lit 0.5; lit 1].
Definition scenario_y : list A := [lit 1; lit 1.5; lit 2].

(** One batch step from [w = [0., 0.]] with [eta = 0.01]. *)
Definition scenario_run : M A nat (list (vec A)) :=
  bind (np_array (lit 0, lit 0))
       (batch_gradient_descent 1 (lit 0.01) scenario_x scenario_y).

Definition fresh : state A nat := mkState (fun _ => (lit 0, lit 0)) 0 0.

Definition outcome {T : Type} (m : M A nat T) : result T :=
  match m fresh with
  | Ok (t, _) => Ok t
  | Raise e => Raise e
  end.
End Scenario.

(** Sums over the data points of a dataset, and the quadratic form
    [Σ (d0 + d1*x_i)^2] of the least-squares problem in direction [d]. *)
Fixpoint sum2 (f : R -> R -> R) (x y : list R) : R :=
  match x, y with
  | xi :: x', yi :: y' => (f xi yi + sum2 f x' y')%R
  | _, _ => 0%R
  end.

Definition curvature (d : vec R) (x : list R) : R :=
  fold_right (fun xi acc => ((fst d + snd d * xi) ^ 2 + acc)%R) 0%R x.

(** The residual of one data point, [y_i - w0 - w1*x_i]. *)
Definition res (w : vec R) (xi yi : R) : R := (yi - fst w - snd w * xi)%R.

(** ** States and results used in the statements *)

(** The state after [w = np.array(v)]. *)
Definition after_alloc {A Gen : Type} (st : state A Gen) (v : vec A) : state A Gen :=
  mkState (store (heap st) (next st) v) (S (next st)) (gen st).

(** The state after [c = w.copy()]. *)
Definition after_copy {A Gen : Type} (st : state A Gen) (w : loc) : state A Gen :=
  mkState (store (heap st) (next st) (heap st w)) (S (next st)) (gen st).

(** The state after [w -= d; c = w.copy()] where the new value of [w]
    is [v]. *)
Definition after_update {A Gen : Type} (st : state A Gen) (w : loc) (v : vec A)
  : state A Gen :=
  mkState (store (store (heap st) w v) (next st) v) (S (next st)) (gen st).

(** The outcome of a computation seen through a map of its value. *)
Definition rmap {A Gen S1 S2 : Type} (f : S1 -> S2)
    (r : result (S1 * state A Gen)) : result (S2 * state A Gen) :=
  match r with
  | Ok (s, st) => Ok (f s, st)
  | Raise e => Raise e
  end.

(** The epoch trajectory is the per-step trajectory read every [m]
    entries, and every per-step entry is the value [w] had after that
    many updates. *)
Definition epoch_subsequence {A : Type} (m epochs : nat)
    (w_steps w_epochs : list (vec A)) : Prop :=
  length w_steps = S (epochs * m) /\
  length w_epochs = S epochs /\
  forall e, e <= epochs -> nth_error w_epochs e = nth_error w_steps (e * m).

Definition frozen {A S : Type} (update : S * vec A -> nat -> S * vec A)
    (start : S * vec A) (js : list nat) (w_steps : list (vec A)) : Prop :=
  forall k, k <= length js ->
    nth_error w_steps k = Some (snd (fold_left update (firstn k js) start)).

(** ** Sums used in the further properties *)

(** The sum of a list of reals and of a list of two-element arrays. *)
Definition rsum (l : list R) : R := fold_right Rplus 0%R l.

Definition vsum (l : list (vec R)) : vec R := fold_right vadd (0%R, 0%R) l.

(** [(1 - m) * Σ_{i<k} m^(k-1-i) * g_i]: the average of the vectors
    [g_0 .. g_(k-1)] with geometrically decaying weights. *)
Definition exponential_average (m : R) (k : nat) (g : nat -> vec R) : vec R :=
  (((1 - m) * Spec.sigma k (fun i => m ^ (k - 1 - i) * fst (g i)))%R,
   ((1 - m) * Spec.sigma k (fun i => m ^ (k - 1 - i) * snd (g i)))%R).

(** A cell run from [st] to [st'] keeps what was allocated: addresses
    are never reused and, apart from [w], no array object that existed
    before changes. *)
Definition preserves {A Gen : Type} (w : loc) (st st' : state A Gen) : Prop :=
  next st <= next st' /\
  forall l, l < next st -> l <> w -> heap st' l = heap st l.

(** * Properties *)

(** ** The counter generator is lawful *)

Lemma rotate_perm (k : nat) (l : list nat) : Permutation (rotate k l) l.
Proof.
  unfold rotate.
  generalize (k mod length l); intros i.
  rewrite <- (firstn_skipn i l) at 3.
  apply Permutation_app_comm.
Qed.

#[export] Instance counter_rng_spec {A : Type} `{Num A} : RngSpec (counter_rng (A:=A)).
Proof.
  split; intros g n; simpl.
  - apply rotate_perm.
  - now rewrite length_map, length_seq.
Qed.

(** ** Arrays *)

Section ArrayFacts.
Context {A : Type} `{Num A}.

Lemma zip_with_length (op : A -> A -> A) (a b : list A) :
  length a = length b -> length (zip_with op a b) = length a.
Proof.
  revert b; induction a as [|ai a IH]; intros [|bi b]; simpl; try easy.
  intros E; f_equal; apply IH; lia.
Qed.

Lemma broadcast_same (op : A -> A -> A) (a b : list A) :
  length a = length b -> broadcast op a b = Ok (zip_with op a b).
Proof.
  intros E; unfold broadcast.
  now rewrite (proj2 (Nat.eqb_eq _ _) E).
Qed.

(** [broadcast] fails exactly on two lengths that differ and are both
    different from one. *)
Lemma broadcast_raises (op : A -> A -> A) (a b : list A) :
  broadcast op a b = Raise ValueError <->
  length a <> length b /\ length a <> 1 /\ length b <> 1.
Proof.
  unfold broadcast.
  destruct (Nat.eqb (length a) (length b)) eqn:E.
  - apply Nat.eqb_eq in E; split; [discriminate | tauto].
  - apply Nat.eqb_neq in E.
    destruct a as [|a0 [|a1 a]]; destruct b as [|b0 [|b1 b]]; simpl in *;
      split; try discriminate; try tauto; try lia; intros _; repeat split; lia.
Qed.

Lemma broadcast_total (op : A -> A -> A) (a b : list A) :
  (exists r, broadcast op a b = Ok r /\
             length r = (if Nat.eqb (length a) 1 then length b else length a) /\
             (length a = length b \/ length a = 1 \/ length b = 1)) \/
  broadcast op a b = Raise ValueError.
Proof.
  unfold broadcast.
  destruct (Nat.eqb (length a) (length b)) eqn:E.
  - apply Nat.eqb_eq in E; left; eexists; split; [reflexivity|].
    rewrite zip_with_length by assumption.
    split; [|now left].
    destruct (Nat.eqb (length a) 1); congruence.
  - apply Nat.eqb_neq in E.
    destruct a as [|a0 [|a1 a]]; destruct b as [|b0 [|b1 b]]; simpl in *;
      try (right; reflexivity); left; eexists; (split; [reflexivity|]);
      simpl; rewrite ?length_map; simpl; split; auto; lia.
Qed.

Lemma residual_raises (w : vec A) (x y : list A) :
  residual w x y = Raise ValueError <-> ~ compatible x y.
Proof.
  unfold residual, compatible.
  rewrite broadcast_raises, !length_map. lia.
Qed.

Lemma residual_same (w : vec A) (x y : list A) :
  length x = length y ->
  residual w x y =
  Ok (zip_with sub (map (fun yi => (yi - fst w)%num) y)
                   (map (fun xi => (snd w * xi)%num) x)).
Proof.
  intros E; unfold residual.
  apply broadcast_same. now rewrite !length_map.
Qed.

(** On a single data point the evaluator is [G1]. *)
Lemma G_singleton (w : vec A) (xj yj : A) : G w [xj] [yj] = Ok (G1 w xj yj).
Proof. reflexivity. Qed.

(** On sequences of equal length the evaluator is total and returns the
    two negated left-to-right sums. *)
Lemma G_same (w : vec A) (x y : list A) :
  length x = length y ->
  let r := zip_with sub (map (fun yi => (yi - fst w)%num) y)
                        (map (fun xi => (snd w * xi)%num) x) in
  G w x y = Ok (neg (pysum r), neg (pysum (zip_with mul r x))).
Proof.
  intros E r; unfold G.
  rewrite residual_same by assumption; simpl.
  rewrite broadcast_same; [reflexivity|].
  fold r; unfold r; rewrite zip_with_length; now rewrite !length_map.
Qed.

Lemma G_raises (w : vec A) (x y : list A) :
  G w x y = Raise ValueError <-> ~ compatible x y.
Proof.
  rewrite <- (residual_raises w).
  unfold G.
  destruct (broadcast_total sub (map (fun yi => (yi - fst w)%num) y)
              (map (fun xi => (snd w * xi)%num) x)) as [(r & Er & Hr & C)|Er];
    fold (residual w x y) in Er; rewrite Er; simpl; [|tauto].
  rewrite !length_map in *.
  split; [|discriminate].
  destruct (broadcast_total mul r x) as [(rx & Erx & _)|Erx]; rewrite Erx;
    [discriminate|].
  apply broadcast_raises in Erx.
  exfalso. destruct Erx as (N1 & N2 & N3).
  destruct (Nat.eqb (length y) 1) eqn:Y1; [lia|].
  apply Nat.eqb_neq in Y1. lia.
Qed.

Lemma G_no_index_error (w : vec A) (x y : list A) :
  G w x y <> Raise IndexError.
Proof.
  unfold G, residual.
  destruct (broadcast_total sub (map (fun yi => (yi - fst w)%num) y)
              (map (fun xi => (snd w * xi)%num) x)) as [(r & Er & _)|Er];
    rewrite Er; simpl; [|discriminate].
  destruct (broadcast_total mul r x) as [(rx & Erx & _)|Erx]; rewrite Erx;
    discriminate.
Qed.

Lemma G_total (w : vec A) (x y : list A) :
  compatible x y -> exists g, G w x y = Ok g.
Proof.
  intros C. destruct (G w x y) as [g|e] eqn:E; [eauto|].
  exfalso. destruct e.
  - apply G_raises in E; tauto.
  - now apply G_no_index_error in E.
Qed.
End ArrayFacts.

(** ** The evaluator over the reals *)

Ltac real_ops :=
  cbn [add sub mul div neg root lit Num_R Qnum Qden fst snd] in *.

Section RealFacts.
Local Open Scope R_scope.

Lemma fold_left_Rplus (l : list R) (a : R) :
  fold_left Rplus l a = a + fold_right Rplus 0 l.
Proof.
  revert a; induction l as [|b l IH]; intros a; simpl; [lra|].
  rewrite IH; lra.
Qed.

Lemma pysum_R (l : list R) : pysum l = fold_right Rplus 0 l.
Proof.
  unfold pysum; real_ops. rewrite fold_left_Rplus. lra.
Qed.

Lemma sum_residuals (w : vec R) (x y : list R) :
  length x = length y ->
  fold_right Rplus 0
    (zip_with Rminus (map (fun yi => yi - fst w) y) (map (fun xi => snd w * xi) x))
  = sum2 (res w) x y.
Proof.
  revert y; induction x as [|xi x IH]; intros [|yi y] E; simpl in *; try easy.
  rewrite IH by lia. unfold res; lra.
Qed.

Lemma sum_residuals_x (w : vec R) (x y : list R) :
  length x = length y ->
  fold_right Rplus 0
    (zip_with Rmult
       (zip_with Rminus (map (fun yi => yi - fst w) y) (map (fun xi => snd w * xi) x))
       x)
  = sum2 (fun xi yi => res w xi yi * xi) x y.
Proof.
  revert y; induction x as [|xi x IH]; intros [|yi y] E; simpl in *; try easy.
  rewrite IH by lia. unfold res; lra.
Qed.

Lemma sum_residuals_sq (w : vec R) (x y : list R) :
  length x = length y ->
  fold_right Rplus 0
    (map (fun ri => ri * ri)
       (zip_with Rminus (map (fun yi => yi - fst w) y) (map (fun xi => snd w * xi) x)))
  = sum2 (fun xi yi => (res w xi yi) ^ 2) x y.
Proof.
  revert y; induction x as [|xi x IH]; intros [|yi y] E; simpl in *; try easy.
  rewrite IH by lia. unfold res; lra.
Qed.

Lemma G_real (w : vec R) (x y : list R) :
  length x = length y ->
  G w x y = Ok (- sum2 (res w) x y, - sum2 (fun xi yi => res w xi yi * xi) x y).
Proof.
  intros E. rewrite G_same by assumption.
  rewrite !pysum_R. real_ops.
  now rewrite sum_residuals, sum_residuals_x.
Qed.

Lemma L_real (w : vec R) (x y : list R) :
  length x = length y ->
  L w x y = Ok (1 / 2 * sum2 (fun xi yi => (res w xi yi) ^ 2) x y).
Proof.
  intros E. unfold L. rewrite residual_same by assumption.
  cbn [rbind]. rewrite pysum_R. real_ops.
  rewrite sum_residuals_sq by assumption.
  f_equal. lra.
Qed.

(** The indexed sums of the specification are the sums over the lists. *)
Lemma sigma_shift (n : nat) (f : nat -> R) :
  Spec.sigma (S n) f = f O + Spec.sigma n (fun i => f (S i)).
Proof.
  induction n as [|n IH]; [simpl; lra|].
  change (Spec.sigma (S (S n)) f) with (Spec.sigma (S n) f + f (S n)).
  rewrite IH. simpl. lra.
Qed.

Lemma sigma_sum2 (f : R -> R -> R) (x y : list R) :
  length x = length y ->
  Spec.sigma (length x) (fun i => f (nth i x 0) (nth i y 0)) = sum2 f x y.
Proof.
  revert y; induction x as [|xi x IH]; intros [|yi y] E; try easy.
  change (length (xi :: x)) with (S (length x)).
  rewrite sigma_shift. simpl. rewrite IH by (simpl in E; lia). reflexivity.
Qed.

Lemma spec_gradient_sum2 (w : vec R) (x y : list R) :
  length x = length y ->
  Spec.gradient w x y =
  (- sum2 (res w) x y, - sum2 (fun xi yi => res w xi yi * xi) x y).
Proof.
  intros E. unfold Spec.gradient, Spec.residual_at.
  rewrite (sigma_sum2 (fun xi yi => yi - fst w - snd w * xi)) by assumption.
  rewrite (sigma_sum2 (fun xi yi => (yi - fst w - snd w * xi) * xi)) by assumption.
  reflexivity.
Qed.

Lemma spec_loss_sum2 (w : vec R) (x y : list R) :
  length x = length y ->
  Spec.loss w x y = 1 / 2 * sum2 (fun xi yi => (res w xi yi) ^ 2) x y.
Proof.
  intros E. unfold Spec.loss, Spec.residual_at.
  rewrite (sigma_sum2 (fun xi yi => (yi - fst w - snd w * xi) ^ 2)) by assumption.
  reflexivity.
Qed.

(** The loss is a quadratic: moving [w] by [d] changes the sum of
    squares by a linear term in the two residual sums and the
    curvature of [d]. *)
Lemma squares_expand (w d : vec R) (x y : list R) :
  length x = length y ->
  sum2 (fun xi yi => (res (fst w + fst d, snd w + snd d) xi yi) ^ 2) x y =
  sum2 (fun xi yi => (res w xi yi) ^ 2) x y
  - 2 * (fst d * sum2 (res w) x y
         + snd d * sum2 (fun xi yi => res w xi yi * xi) x y)
  + curvature d x.
Proof.
  revert y; induction x as [|xi x IH]; intros [|yi y] E; simpl in *; try easy.
  - lra.
  - rewrite IH by lia. unfold res; simpl. ring.
Qed.

Lemma curvature_nonneg (d : vec R) (x : list R) : 0 <= curvature d x.
Proof.
  induction x as [|xi x IH]; simpl; [lra|].
  pose proof (pow2_ge_0 (fst d + snd d * xi)). lra.
Qed.

Lemma curvature_scale (c : R) (d : vec R) (x : list R) :
  curvature (c * fst d, c * snd d) x = c ^ 2 * curvature d x.
Proof.
  induction x as [|xi x IH]; simpl in *; [lra|].
  rewrite IH. ring.
Qed.
End RealFacts.

Section GradientFacts.
Local Open Scope R_scope.

(** A function whose increments are exactly linear plus quadratic has
    the linear coefficient as its derivative. *)
Lemma quadratic_derivative (f : R -> R) (a l c : R) :
  0 <= c ->
  (forall h, f (a + h) - f a = h * l + h ^ 2 * c) ->
  derivable_pt_lim f a l.
Proof.
  intros Hc Hf eps Heps.
  assert (Hd : 0 < eps / (c + 1)) by (apply Rdiv_lt_0_compat; lra).
  exists (mkposreal _ Hd). intros h Hh Hlt. simpl in Hlt.
  rewrite Hf.
  replace ((h * l + h ^ 2 * c) / h - l) with (h * c) by (field; assumption).
  rewrite Rabs_mult, (Rabs_right c) by lra.
  apply Rle_lt_trans with (Rabs h * (c + 1)).
  - pose proof (Rabs_pos h). nra.
  - apply Rmult_lt_reg_r with (/ (c + 1)).
    + apply Rinv_0_lt_compat; lra.
    + rewrite Rmult_assoc, Rinv_r by lra. unfold Rdiv in Hlt. lra.
Qed.

Lemma loss_partial_w0 (w : vec R) (x y : list R) :
  length x = length y ->
  derivable_pt_lim (fun t => Spec.loss (t, snd w) x y) (fst w)
                   (fst (Spec.gradient w x y)).
Proof.
  intros E. destruct w as [w0 w1]. cbn [fst snd].
  apply quadratic_derivative with (c := 1 / 2 * curvature (1, 0) x).
  - pose proof (curvature_nonneg (1, 0) x). lra.
  - intros h. rewrite spec_gradient_sum2, !spec_loss_sum2 by assumption.
    pose proof (squares_expand (w0, w1) (h * 1, h * 0) x y E) as X.
    pose proof (curvature_scale h (1, 0) x) as Cs.
    cbn [fst snd] in X, Cs. rewrite Cs in X.
    replace (w1 + h * 0) with w1 in X by lra.
    replace (w0 + h * 1) with (w0 + h) in X by lra.
    rewrite X. cbn [fst snd]. field.
Qed.

Lemma loss_partial_w1 (w : vec R) (x y : list R) :
  length x = length y ->
  derivable_pt_lim (fun t => Spec.loss (fst w, t) x y) (snd w)
                   (snd (Spec.gradient w x y)).
Proof.
  intros E. destruct w as [w0 w1]. cbn [fst snd].
  apply quadratic_derivative with (c := 1 / 2 * curvature (0, 1) x).
  - pose proof (curvature_nonneg (0, 1) x). lra.
  - intros h. rewrite spec_gradient_sum2, !spec_loss_sum2 by assumption.
    pose proof (squares_expand (w0, w1) (h * 0, h * 1) x y E) as X.
    pose proof (curvature_scale h (0, 1) x) as Cs.
    cbn [fst snd] in X, Cs. rewrite Cs in X.
    replace (w0 + h * 0) with w0 in X by lra.
    replace (w1 + h * 1) with (w1 + h) in X by lra.
    rewrite X. cbn [fst snd]. field.
Qed.

Lemma L_spec_loss (v : vec R) (x y : list R) :
  length x = length y -> L v x y = Ok (Spec.loss v x y).
Proof.
  intros E. rewrite spec_loss_sum2 by assumption. now apply L_real.
Qed.

Lemma G_spec_gradient (w : vec R) (x y : list R) :
  length x = length y -> G w x y = Ok (Spec.gradient w x y).
Proof.
  intros E. rewrite spec_gradient_sum2 by assumption. now apply G_real.
Qed.

(** The loss after one batch step of size [eta] along the gradient. *)
Lemma loss_after_step (eta : R) (w g : vec R) (x y : list R) :
  length x = length y ->
  G w x y = Ok g ->
  L (vsub w (vscale eta g)) x y =
  Ok (Spec.loss w x y - eta * (fst g ^ 2 + snd g ^ 2)
      + eta ^ 2 / 2 * curvature g x).
Proof.
  intros E HG. rewrite G_real in HG by assumption.
  injection HG as <-.
  rewrite L_real, spec_loss_sum2 by assumption.
  unfold vsub, vscale. real_ops.
  pose proof (squares_expand w
    ((- eta) * (- sum2 (res w) x y),
     (- eta) * (- sum2 (fun xi yi => res w xi yi * xi) x y)) x y E) as X.
  pose proof (curvature_scale (- eta)
    (- sum2 (res w) x y, - sum2 (fun xi yi => res w xi yi * xi) x y) x) as Cs.
  cbn [fst snd] in X, Cs. rewrite Cs in X.
  match goal with
  | |- Ok (_ * sum2 (fun xi yi => res ?p xi yi ^ 2) x y) = _ =>
      match type of X with
      | sum2 (fun xi yi => res ?q xi yi ^ 2) x y = _ =>
          replace p with q by (f_equal; ring)
      end
  end.
  rewrite X. f_equal. cbn [fst snd]. field.
Qed.
End GradientFacts.

(** ** Folds and traces *)

Section TraceFacts.
Context {S I : Type}.
Variable f : S -> I -> S.

Lemma trace_app (s : S) (a b : list I) :
  trace f s (a ++ b) = trace f s a ++ trace f (fold_left f a s) b.
Proof.
  revert s; induction a as [|i a IH]; intros s; simpl; [reflexivity|].
  now rewrite IH.
Qed.

Lemma trace_length (s : S) (a : list I) : length (trace f s a) = length a.
Proof.
  revert s; induction a as [|i a IH]; intros s; simpl; [reflexivity|].
  now rewrite IH.
Qed.

Lemma scan_length (s : S) (a : list I) : length (scan f s a) = Datatypes.S (length a).
Proof. unfold scan; simpl; now rewrite trace_length. Qed.

End TraceFacts.

(** ** The machine *)

Section MachineFacts.
Context {A Gen : Type} {NA : Num A} {RG : Rng A Gen}.
Local Open Scope cell_scope.

#[local] Abbreviation state := (state A Gen).
#[local] Abbreviation M := (M A Gen).

Lemma bind_ok {T U : Type} (m : M T) (k : T -> M U) (st st1 : state) (t : T) :
  m st = Ok (t, st1) -> bind m k st = k t st1.
Proof. intros E; unfold bind; now rewrite E. Qed.

(** Two loops whose bodies agree through a map of their variables agree
    through that map. *)
Lemma for_map {I S1 S2 : Type} (f : S1 -> S2) (items : list I)
    (b1 : I -> S1 -> M S1) (b2 : I -> S2 -> M S2) :
  (forall i s st,
      b2 i (f s) st = match b1 i s st with
                      | Ok (s', st') => Ok (f s', st')
                      | Raise e => Raise e
                      end) ->
  forall s st,
    for_ items b2 (f s) st = match for_ items b1 s st with
                             | Ok (s', st') => Ok (f s', st')
                             | Raise e => Raise e
                             end.
Proof.
  intros Hb. induction items as [|i items IH]; intros s st; simpl.
  - reflexivity.
  - unfold bind. rewrite Hb.
    destruct (b1 i s st) as [[s' st']|e]; [apply IH | reflexivity].
Qed.

Lemma getitem_nth (x : list A) (j : nat) (d : A) :
  j < length x -> getitem x j = Ok (nth j x d).
Proof.
  intros Hj. unfold getitem.
  destruct (nth_error x j) as [v|] eqn:E.
  - now rewrite (nth_error_nth _ _ d E).
  - apply nth_error_None in E; lia.
Qed.

(** *** Snapshots survive the operations of a cell *)

Lemma store_same (h : loc -> vec A) (l : loc) (v : vec A) : store h l v l = v.
Proof. unfold store; now rewrite Nat.eqb_refl. Qed.

Lemma store_other (h : loc -> vec A) (l l' : loc) (v : vec A) :
  l' <> l -> store h l v l' = h l'.
Proof.
  intros N; unfold store.
  now rewrite (proj2 (Nat.eqb_neq _ _) N).
Qed.

Lemma copy_run (st : state) (w : loc) :
  copy w st = Ok (next st, after_copy st w).
Proof. reflexivity. Qed.

Lemma after_copy_w (st : state) (w : loc) :
  w < next st -> heap (after_copy st w) w = heap st w.
Proof. intros Hw; simpl. apply store_other; lia. Qed.

Lemma after_update_w (st : state) (w : loc) (v : vec A) :
  w < next st -> heap (after_update st w v) w = v.
Proof.
  intros Hw; simpl. rewrite store_other by lia. apply store_same.
Qed.

Lemma snapshots_map (st st' : state) (w : loc) (ls : list loc) (vs : list (vec A)) :
  next st <= next st' ->
  (forall l, l < next st -> l <> w -> heap st' l = heap st l) ->
  snapshots st w ls vs -> snapshots st' w ls vs.
Proof.
  intros Hn Hh [Hf Hv]. split.
  - eapply Forall_impl; [|exact Hf]. simpl; intros l [? ?]; split; [lia|assumption].
  - rewrite <- Hv. apply map_ext_in. intros l Hl.
    rewrite Forall_forall in Hf. destruct (Hf l Hl). now apply Hh.
Qed.

Lemma snapshots_push (st' : state) (w c : loc) (v : vec A)
    (ls : list loc) (vs : list (vec A)) :
  snapshots st' w ls vs -> c < next st' -> c <> w -> heap st' c = v ->
  snapshots st' w (ls ++ [c]) (vs ++ [v]).
Proof.
  intros [Hf Hv] Hc Hcw Hh. split.
  - apply Forall_app; split; [assumption|]. constructor; [tauto|constructor].
  - rewrite map_app, Hv; simpl; now rewrite Hh.
Qed.

Lemma snapshots_after_update (st : state) (w : loc) (v : vec A)
    (ls : list loc) (vs : list (vec A)) :
  snapshots st w ls vs -> snapshots (after_update st w v) w ls vs.
Proof.
  apply snapshots_map; simpl; [lia|].
  intros l Hl Hw. rewrite !store_other by lia. reflexivity.
Qed.

Lemma snapshots_after_update_push (st : state) (w : loc) (v : vec A)
    (ls : list loc) (vs : list (vec A)) :
  w < next st ->
  snapshots st w ls vs ->
  snapshots (after_update st w v) w (ls ++ [next st]) (vs ++ [v]).
Proof.
  intros Hw Hs. apply snapshots_push.
  - now apply snapshots_after_update.
  - simpl; lia.
  - lia.
  - simpl. apply store_same.
Qed.

Lemma snapshots_after_copy (st : state) (w : loc)
    (ls : list loc) (vs : list (vec A)) :
  snapshots st w ls vs -> snapshots (after_copy st w) w ls vs.
Proof.
  apply snapshots_map; simpl; [lia|].
  intros l Hl Hw. rewrite store_other by lia. reflexivity.
Qed.

Lemma snapshots_after_copy_push (st : state) (w : loc)
    (ls : list loc) (vs : list (vec A)) :
  w < next st ->
  snapshots st w ls vs ->
  snapshots (after_copy st w) w (ls ++ [next st]) (vs ++ [heap st w]).
Proof.
  intros Hw Hs. apply snapshots_push.
  - now apply snapshots_after_copy.
  - simpl; lia.
  - lia.
  - simpl. apply store_same.
Qed.

Lemma snapshots_gen (st : state) (g : Gen) (w : loc)
    (ls : list loc) (vs : list (vec A)) :
  snapshots st w ls vs -> snapshots (mkState (heap st) (next st) g) w ls vs.
Proof. apply snapshots_map; simpl; auto. Qed.
End MachineFacts.

(** ** The per-point loops compute the pure trajectories *)

Ltac close_run :=
  repeat match goal with |- _ /\ _ => split end;
  try assumption; try reflexivity.

Section PerPointFacts.
Context {A Gen : Type} {NA : Num A} {RG : Rng A Gen} {RS : RngSpec RG}.
Context {S : Type}.
Variable rule : S -> vec A -> A -> A -> S * vec A.
Variables x y : list A.
Variable w : loc.
Hypothesis same_length : length x = length y.

#[local] Abbreviation upd := (point_update rule x y).
#[local] Abbreviation epoch := (epoch_update rule x y).

Lemma point_step_run (j : nat) (s : S) (ls : list loc) (st : state A Gen) :
  j < length x ->
  point_step rule x y w j (s, ls) st =
  Ok ((fst (upd (s, heap st w) j), ls ++ [next st]),
      after_update st w (snd (upd (s, heap st w) j))).
Proof.
  intros Hj. unfold point_step, point_update.
  rewrite (getitem_nth x j (lit 0) Hj).
  rewrite (getitem_nth y j (lit 0)) by lia.
  cbn [fst snd].
  destruct (rule s (heap st w) (nth j x (lit 0)) (nth j y (lit 0))) as [s' d] eqn:Er.
  unfold bind, lift, load, isub, copy, bind, load, np_array, ret, after_update.
  cbn [heap next gen fst snd]. rewrite Er. cbn [fst snd].
  rewrite store_same. reflexivity.
Qed.

Lemma points_run (js : list nat) :
  forall (s : S) (ls le : list loc) (vs ve : list (vec A)) (st : state A Gen),
    Forall (fun j => j < length x) js ->
    w < next st ->
    snapshots st w ls vs ->
    snapshots st w le ve ->
    exists ls' st',
      for_ js (point_step rule x y w) (s, ls) st =
      Ok ((fst (fold_left upd js (s, heap st w)), ls'), st') /\
      heap st' w = snd (fold_left upd js (s, heap st w)) /\
      w < next st' /\
      gen st' = gen st /\
      snapshots st' w ls' (vs ++ map snd (trace upd (s, heap st w) js)) /\
      snapshots st' w le ve.
Proof.
  induction js as [|j js IH]; intros s ls le vs ve st Hjs Hw Hls Hle.
  - exists ls, st. simpl. rewrite app_nil_r. close_run.
  - inversion Hjs as [|? ? Hj Hjs']; subst.
    cbn [for_ fold_left trace map].
    rewrite (bind_ok _ _ _ _ _ (point_step_run j s ls st Hj)).
    set (acc := upd (s, heap st w) j).
    set (st1 := after_update st w (snd acc)).
    assert (Hw1 : w < next st1) by (simpl; lia).
    assert (Hh1 : heap st1 w = snd acc) by (apply after_update_w; assumption).
    destruct (IH (fst acc) (ls ++ [next st]) le (vs ++ [snd acc]) ve st1 Hjs' Hw1)
      as (ls' & st' & Erun & Hh & Hw' & Hg & Hs & He).
    + now apply snapshots_after_update_push.
    + now apply snapshots_after_update.
    + rewrite Hh1 in *. rewrite <- surjective_pairing in *.
      exists ls', st'. rewrite <- app_assoc in Hs. simpl in Hs.
      close_run.
Qed.

Lemma choice_in_range (g : Gen) :
  Forall (fun j => j < length x) (fst (choice g (length x))).
Proof.
  apply Forall_forall. intros j Hj.
  apply (Permutation_in _ (choice_perm g (length x))) in Hj.
  apply in_seq in Hj. lia.
Qed.

Lemma epoch_step_run (a : nat) (s : S) (ls le : list loc) (vs ve : list (vec A))
    (st : state A Gen) :
  w < next st ->
  snapshots st w ls vs ->
  snapshots st w le ve ->
  let p := fst (choice (gen st) (length x)) in
  exists ls' le' st',
    epoch_step rule x y w a (s, ls, le) st =
    Ok ((fst (epoch (s, heap st w) p), ls', le'), st') /\
    heap st' w = snd (epoch (s, heap st w) p) /\
    w < next st' /\
    gen st' = snd (choice (gen st) (length x)) /\
    snapshots st' w ls' (vs ++ map snd (trace upd (s, heap st w) p)) /\
    snapshots st' w le' (ve ++ [snd (epoch (s, heap st w) p)]).
Proof.
  intros Hw Hls Hle p.
  unfold epoch_step, random_choice. unfold bind at 1.
  pose proof (choice_in_range (gen st)) as Hp. fold p in Hp.
  destruct (choice (gen st) (length x)) as [p' g'] eqn:Ec.
  cbn [fst snd] in *. subst p.
  set (st0 := mkState (heap st) (next st) g').
  destruct (points_run p' s ls le vs ve st0 Hp Hw
              (snapshots_gen _ g' _ _ _ Hls) (snapshots_gen _ g' _ _ _ Hle))
    as (ls' & st1 & Erun & Hh & Hw1 & Hg & Hs & He).
  change (heap st0 w) with (heap st w) in *.
  change (gen st0) with g' in Hg.
  rewrite (bind_ok _ _ _ _ _ Erun).
  rewrite (bind_ok _ _ _ _ _ (copy_run st1 w)).
  unfold ret.
  exists ls', (le ++ [next st1]), (after_copy st1 w).
  unfold epoch_update.
  split; [reflexivity|].
  split; [rewrite after_copy_w by assumption; exact Hh|].
  split; [simpl; lia|].
  split; [exact Hg|].
  split; [apply (snapshots_after_copy _ _ _ _ Hs)|].
  rewrite <- Hh. apply (snapshots_after_copy_push _ _ _ _ Hw1 He).
Qed.

Lemma epochs_run (n : nat) :
  forall (a : nat) (s : S) (ls le : list loc) (vs ve : list (vec A))
         (st : state A Gen),
    w < next st ->
    snapshots st w ls vs ->
    snapshots st w le ve ->
    let perms := draws n (length x) (gen st) in
    exists ls' le' st',
      for_ (seq a n) (epoch_step rule x y w) (s, ls, le) st =
      Ok ((fst (fold_left epoch perms (s, heap st w)), ls', le'), st') /\
      heap st' w = snd (fold_left epoch perms (s, heap st w)) /\
      w < next st' /\
      gen st' = gen_after n (length x) (gen st) /\
      snapshots st' w ls' (vs ++ map snd (trace upd (s, heap st w) (concat perms))) /\
      snapshots st' w le' (ve ++ map snd (trace epoch (s, heap st w) perms)).
Proof.
  induction n as [|n IH]; intros a s ls le vs ve st Hw Hls Hle perms.
  - exists ls, le, st. simpl. rewrite !app_nil_r. close_run.
  - subst perms. cbn [seq for_ draws gen_after fold_left concat trace map].
    destruct (epoch_step_run a s ls le vs ve st Hw Hls Hle)
      as (ls1 & le1 & st1 & Erun & Hh1 & Hw1 & Hg1 & Hs1 & He1).
    rewrite (bind_ok _ _ _ _ _ Erun).
    set (p := fst (choice (gen st) (length x))) in *.
    set (acc := epoch (s, heap st w) p) in *.
    destruct (IH (Datatypes.S a) (fst acc) ls1 le1 _ _ st1 Hw1 Hs1 He1)
      as (ls' & le' & st' & Erun' & Hh' & Hw' & Hg' & Hs' & He').
    rewrite Hh1, Hg1 in *. rewrite <- surjective_pairing in *.
    exists ls', le', st'.
    rewrite trace_app, map_app, app_assoc.
    rewrite <- app_assoc in He'. simpl in He'.
    close_run.
Qed.

(** The generic descent, from an allocated [w]. *)
Lemma descent_run (epochs : nat) (s : S) (st : state A Gen) :
  w < next st ->
  let perms := draws epochs (length x) (gen st) in
  exists ls le st',
    descent rule x y w epochs s st = Ok ((fst (fold_left epoch perms (s, heap st w)), ls, le), st') /\
    heap st' w = snd (fold_left epoch perms (s, heap st w)) /\
    gen st' = gen_after epochs (length x) (gen st) /\
    snapshots st' w ls (step_values rule x y (s, heap st w) perms) /\
    snapshots st' w le (epoch_values rule x y (s, heap st w) perms).
Proof.
  intros Hw perms. unfold descent.
  rewrite (bind_ok _ _ _ _ _ (copy_run st w)).
  rewrite (bind_ok _ _ _ _ _ (copy_run (after_copy st w) w)).
  set (st1 := after_copy st w). set (st2 := after_copy st1 w).
  assert (Hw1 : w < next st1) by (simpl; lia).
  assert (Hw2 : w < next st2) by (simpl; lia).
  assert (Hh1 : heap st1 w = heap st w) by now apply after_copy_w.
  assert (Hh2 : heap st2 w = heap st w)
    by (unfold st2; rewrite after_copy_w; assumption).
  assert (S0 : snapshots st w [] []) by (split; [constructor|reflexivity]).
  assert (Sa : snapshots st2 w [next st] [heap st w]).
  { apply snapshots_after_copy.
    apply (snapshots_after_copy_push st w [] [] Hw S0). }
  assert (Sb : snapshots st2 w [next st1] [heap st w]).
  { rewrite <- Hh1. apply (snapshots_after_copy_push st1 w [] [] Hw1).
    apply snapshots_after_copy. exact S0. }
  destruct (epochs_run epochs 0 s _ _ _ _ st2 Hw2 Sa Sb)
    as (ls' & le' & st' & Erun & Hh & Hw' & Hg & Hs & He).
  change (gen st2) with (gen st) in *. rewrite Hh2 in *.
  exists ls', le', st'. fold perms in Erun, Hh, Hg, Hs, He.
  close_run.
Qed.
End PerPointFacts.

(** ** The three per-point cells run the generic loops *)

Section CellsAsDescent.
Context {A Gen : Type} {NA : Num A} {RG : Rng A Gen} {RS : RngSpec RG}.
Local Open Scope cell_scope.

Lemma for_rmap {I S1 S2 : Type} (f : S1 -> S2) (items : list I)
    (b1 : I -> S1 -> M A Gen S1) (b2 : I -> S2 -> M A Gen S2) :
  (forall i s st, b2 i (f s) st = rmap f (b1 i s st)) ->
  forall s st, for_ items b2 (f s) st = rmap f (for_ items b1 s st).
Proof. apply for_map. Qed.

Lemma bind_rmap {T S1 S2 : Type} (f : S1 -> S2) (m : M A Gen T)
    (k1 : T -> M A Gen S1) (k2 : T -> M A Gen S2) (st : state A Gen) :
  (forall t st', k2 t st' = rmap f (k1 t st')) ->
  bind m k2 st = rmap f (bind m k1 st).
Proof.
  intros E. unfold bind. destruct (m st) as [[t st']|e]; [apply E | reflexivity].
Qed.

Lemma bind_rmap_both {T1 T2 S1 S2 : Type} (g : T1 -> T2) (f : S1 -> S2)
    (m1 : M A Gen T1) (m2 : M A Gen T2)
    (k1 : T1 -> M A Gen S1) (k2 : T2 -> M A Gen S2) (st : state A Gen) :
  m2 st = rmap g (m1 st) ->
  (forall t st', k2 (g t) st' = rmap f (k1 t st')) ->
  bind m2 k2 st = rmap f (bind m1 k1 st).
Proof.
  intros Em E. unfold bind. rewrite Em.
  destruct (m1 st) as [[t st']|e]; [apply E | reflexivity].
Qed.

Variables (eta momentum : A) (x y : list A) (w : loc).

(** The loops of the stochastic cell. *)
Lemma stochastic_loops (epochs : nat) (c0 c1 : list loc) (st : state A Gen) :
  for_ (seq 0 epochs) (fun _ '(w_stoch, w_epoch) =>
      random_indices <- random_choice (length x) ;;
      w_stoch <- for_ random_indices (fun j w_stoch =>
          x_sample <- lift (getitem x j) ;;
          y_sample <- lift (getitem y j) ;;
          wv <- load w ;;
          g <- lift (G wv [x_sample] [y_sample]) ;;
          isub w (vscale eta g) ;;
          c <- copy w ;;
          ret (w_stoch ++ [c])) w_stoch ;;
      c <- copy w ;;
      ret (w_stoch, w_epoch ++ [c])) (c0, c1) st =
  rmap (fun r : unit * list loc * list loc => (snd (fst r), snd r))
       (for_ (seq 0 epochs) (epoch_step (sgd_rule eta) x y w) (tt, c0, c1) st).
Proof.
  refine (for_rmap (fun r : unit * list loc * list loc => (snd (fst r), snd r))
            (seq 0 epochs) (epoch_step (sgd_rule eta) x y w) _ _ (tt, c0, c1) st).
  intros i [[[] ws] we] st0. cbn [fst snd]. unfold epoch_step.
  apply bind_rmap; intros p st1. cbn [fst snd].
  apply (bind_rmap_both (@snd unit (list loc))).
  - refine (for_rmap (@snd unit (list loc)) p
              (point_step (sgd_rule eta) x y w) _ _ (tt, ws) st1).
    intros j [[] ws0] st2. unfold point_step. cbn [fst snd].
    apply bind_rmap; intros xs st3.
    apply bind_rmap; intros ys st4.
    reflexivity.
  - intros [[] ws1] st2. reflexivity.
Qed.

(** The loops of the momentum cell. *)
Lemma momentum_loops (epochs : nat) (d0 : vec A) (c0 c1 : list loc)
    (st : state A Gen) :
  for_ (seq 0 epochs) (fun _ '(delta_w, w_momen, w_mepoch) =>
      random_indices <- random_choice (length x) ;;
      '(delta_w, w_momen) <- for_ random_indices (fun j '(delta_w, w_momen) =>
          x_sample <- lift (getitem x j) ;;
          y_sample <- lift (getitem y j) ;;
          wv <- load w ;;
          g <- lift (G wv [x_sample] [y_sample]) ;;
          let delta_w := vadd (vscale momentum delta_w)
                              (vscale (lit 1 - momentum)%num g) in
          isub w (vscale eta delta_w) ;;
          c <- copy w ;;
          ret (delta_w, w_momen ++ [c])) (delta_w, w_momen) ;;
      c <- copy w ;;
      ret (delta_w, w_momen, w_mepoch ++ [c])) (d0, c0, c1) st =
  rmap (fun r => r)
       (for_ (seq 0 epochs) (epoch_step (momentum_rule eta momentum) x y w)
             (d0, c0, c1) st).
Proof.
  refine (for_rmap (fun r : vec A * list loc * list loc => r)
            (seq 0 epochs) (epoch_step (momentum_rule eta momentum) x y w)
            _ _ (d0, c0, c1) st).
  intros i [[d ws] we] st0. unfold epoch_step. cbn [fst snd].
  apply bind_rmap; intros p st1.
  apply (bind_rmap_both (fun r : vec A * list loc => r)).
  - refine (for_rmap (fun r : vec A * list loc => r) p
              (point_step (momentum_rule eta momentum) x y w) _ _ (d, ws) st1).
    intros j [d1 ws0] st2. unfold point_step. cbn [fst snd].
    apply bind_rmap; intros xs st3.
    apply bind_rmap; intros ys st4.
    reflexivity.
  - intros [d1 ws1] st2. reflexivity.
Qed.

(** The loops of the RMSprop cell. *)
Lemma rmsprop_loops (epochs : nat) (a0 : vec A) (c0 c1 : list loc)
    (st : state A Gen) :
  for_ (seq 0 epochs) (fun _ '(g2, w_momen, w_mepoch) =>
      random_indices <- random_choice (length x) ;;
      '(g2, w_momen) <- for_ random_indices (fun j '(g2, w_momen) =>
          x_sample <- lift (getitem x j) ;;
          y_sample <- lift (getitem y j) ;;
          wv <- load w ;;
          gradient <- lift (G wv [x_sample] [y_sample]) ;;
          let g2 := rmsprop_average momentum g2 gradient in
          isub w (vdiv (vscale eta gradient) (rmsprop_denominator g2)) ;;
          c <- copy w ;;
          ret (g2, w_momen ++ [c])) (g2, w_momen) ;;
      c <- copy w ;;
      ret (g2, w_momen, w_mepoch ++ [c])) (a0, c0, c1) st =
  rmap (fun r => r)
       (for_ (seq 0 epochs) (epoch_step (rmsprop_rule eta momentum) x y w)
             (a0, c0, c1) st).
Proof.
  refine (for_rmap (fun r : vec A * list loc * list loc => r)
            (seq 0 epochs) (epoch_step (rmsprop_rule eta momentum) x y w)
            _ _ (a0, c0, c1) st).
  intros i [[d ws] we] st0. unfold epoch_step. cbn [fst snd].
  apply bind_rmap; intros p st1.
  apply (bind_rmap_both (fun r : vec A * list loc => r)).
  - refine (for_rmap (fun r : vec A * list loc => r) p
              (point_step (rmsprop_rule eta momentum) x y w) _ _ (d, ws) st1).
    intros j [d1 ws0] st2. unfold point_step. cbn [fst snd].
    apply bind_rmap; intros xs st3.
    apply bind_rmap; intros ys st4.
    reflexivity.
  - intros [d1 ws1] st2. reflexivity.
Qed.

Lemma descent_loops {S : Type} (rule : S -> vec A -> A -> A -> S * vec A)
    (epochs : nat) (s : S) (st : state A Gen) :
  descent rule x y w epochs s st =
  for_ (seq 0 epochs) (epoch_step rule x y w)
       (s, [next st], [next (after_copy st w)])
       (after_copy (after_copy st w) w).
Proof. reflexivity. Qed.
End CellsAsDescent.

Section CellRuns.
Context {A Gen : Type} {NA : Num A} {RG : Rng A Gen} {RS : RngSpec RG}.
Variables (x y : list A).
Hypothesis same_length : length x = length y.

Lemma stack_snapshots (st : state A Gen) (w : loc) (ls : list loc)
    (vs : list (vec A)) :
  snapshots st w ls vs -> np_stack ls st = Ok (vs, st).
Proof. intros [_ E]. unfold np_stack. now rewrite E. Qed.

(** The stochastic cell returns the pure trajectories of its rule over
    the generator's successive draws. *)
Lemma stochastic_run (epochs : nat) (eta : A) (w_init : vec A)
    (st : state A Gen) :
  let perms := draws epochs (length x) (gen st) in
  exists st',
    stochastic_gradient_descent epochs eta x y w_init st =
    Ok ((step_values (sgd_rule eta) x y (tt, w_init) perms,
         epoch_values (sgd_rule eta) x y (tt, w_init) perms), st') /\
    gen st' = gen_after epochs (length x) (gen st).
Proof.
  intros perms. unfold stochastic_gradient_descent.
  set (st0 := after_alloc st w_init).
  assert (E0 : np_array w_init st = Ok (next st, st0)) by reflexivity.
  rewrite (bind_ok _ _ _ _ _ E0).
  rewrite (bind_ok _ _ _ _ _ (copy_run st0 (next st))).
  rewrite (bind_ok _ _ _ _ _ (copy_run (after_copy st0 (next st)) (next st))).
  assert (Hw : next st < next st0) by (simpl; lia).
  assert (Hh : heap st0 (next st) = w_init) by (simpl; apply store_same).
  destruct (descent_run (sgd_rule eta) x y (next st) same_length epochs tt st0 Hw)
    as (ls & le & st' & Erun & _ & Hg & Hs & He).
  rewrite Hh in *. change (gen st0) with (gen st) in *. fold perms in Erun, Hg, Hs, He.
  rewrite descent_loops in Erun.
  pose proof (stochastic_loops eta x y (next st) epochs
                [next st0] [next (after_copy st0 (next st))]
                (after_copy (after_copy st0 (next st)) (next st))) as E.
  rewrite Erun in E. cbn [rmap fst snd] in E.
  rewrite (bind_ok _ _ _ _ _ E).
  rewrite (bind_ok _ _ _ _ _ (stack_snapshots _ _ _ _ Hs)).
  rewrite (bind_ok _ _ _ _ _ (stack_snapshots _ _ _ _ He)).
  exists st'. split; [reflexivity | assumption].
Qed.

Lemma momentum_run (epochs : nat) (eta momentum : A) (w_init : vec A)
    (st : state A Gen) :
  let perms := draws epochs (length x) (gen st) in
  let start := ((lit 0.0, lit 0.0), w_init) in
  exists st',
    momentum_gradient_descent epochs eta momentum x y w_init st =
    Ok ((step_values (momentum_rule eta momentum) x y start perms,
         epoch_values (momentum_rule eta momentum) x y start perms), st') /\
    gen st' = gen_after epochs (length x) (gen st).
Proof.
  intros perms start. unfold momentum_gradient_descent.
  set (st0 := after_alloc st w_init).
  assert (E0 : np_array w_init st = Ok (next st, st0)) by reflexivity.
  rewrite (bind_ok _ _ _ _ _ E0).
  rewrite (bind_ok _ _ _ _ _ (copy_run st0 (next st))).
  rewrite (bind_ok _ _ _ _ _ (copy_run (after_copy st0 (next st)) (next st))).
  assert (Hw : next st < next st0) by (simpl; lia).
  assert (Hh : heap st0 (next st) = w_init) by (simpl; apply store_same).
  destruct (descent_run (momentum_rule eta momentum) x y (next st) same_length
              epochs (lit 0.0, lit 0.0) st0 Hw)
    as (ls & le & st' & Erun & _ & Hg & Hs & He).
  rewrite Hh in *. change (gen st0) with (gen st) in *.
  fold perms in Erun, Hg, Hs, He. fold start in Erun, Hs, He.
  rewrite descent_loops in Erun.
  pose proof (momentum_loops eta momentum x y (next st) epochs (lit 0.0, lit 0.0)
                [next st0] [next (after_copy st0 (next st))]
                (after_copy (after_copy st0 (next st)) (next st))) as E.
  rewrite Erun in E. cbn [rmap fst snd] in E.
  cbv zeta. rewrite (bind_ok _ _ _ _ _ E).
  rewrite (bind_ok _ _ _ _ _ (stack_snapshots _ _ _ _ Hs)).
  rewrite (bind_ok _ _ _ _ _ (stack_snapshots _ _ _ _ He)).
  exists st'. split; [reflexivity | assumption].
Qed.

(** The RMSprop cell leaves [w_mepoch] a list of array objects; they
    hold the epoch values in the final heap. *)
Lemma rmsprop_run (epochs : nat) (eta momentum : A) (w_init : vec A)
    (st : state A Gen) :
  let perms := draws epochs (length x) (gen st) in
  let start := ((lit 0, lit 0), w_init) in
  exists w_mepoch st',
    rmsprop_gradient_descent epochs eta momentum x y w_init st =
    Ok ((step_values (rmsprop_rule eta momentum) x y start perms, w_mepoch), st') /\
    snapshots st' (next st) w_mepoch
              (epoch_values (rmsprop_rule eta momentum) x y start perms) /\
    gen st' = gen_after epochs (length x) (gen st).
Proof.
  intros perms start. unfold rmsprop_gradient_descent.
  set (st0 := after_alloc st w_init).
  assert (E0 : np_array w_init st = Ok (next st, st0)) by reflexivity.
  rewrite (bind_ok _ _ _ _ _ E0).
  rewrite (bind_ok _ _ _ _ _ (copy_run st0 (next st))).
  rewrite (bind_ok _ _ _ _ _ (copy_run (after_copy st0 (next st)) (next st))).
  assert (Hw : next st < next st0) by (simpl; lia).
  assert (Hh : heap st0 (next st) = w_init) by (simpl; apply store_same).
  destruct (descent_run (rmsprop_rule eta momentum) x y (next st) same_length
              epochs (lit 0, lit 0) st0 Hw)
    as (ls & le & st' & Erun & _ & Hg & Hs & He).
  rewrite Hh in *. change (gen st0) with (gen st) in *.
  fold perms in Erun, Hg, Hs, He. fold start in Erun, Hs, He.
  rewrite descent_loops in Erun.
  pose proof (rmsprop_loops eta momentum x y (next st) epochs (lit 0, lit 0)
                [next st0] [next (after_copy st0 (next st))]
                (after_copy (after_copy st0 (next st)) (next st))) as E.
  rewrite Erun in E. cbn [rmap fst snd] in E.
  cbv zeta. rewrite (bind_ok _ _ _ _ _ E).
  rewrite (bind_ok _ _ _ _ _ (stack_snapshots _ _ _ _ Hs)).
  exists le, st'. split; [reflexivity | split; assumption].
Qed.
End CellRuns.

(** ** Shape of the trajectories *)

Section ScanIndex.
Context {S I : Type}.
Variable f : S -> I -> S.

Lemma scan_nth_error (s : S) (a : list I) (k : nat) :
  k <= length a ->
  nth_error (scan f s a) k = Some (fold_left f (firstn k a) s).
Proof.
  revert s k; induction a as [|i a IH]; intros s [|k] Hk; simpl in *;
    try reflexivity; try lia.
  apply (IH (f s i) k). lia.
Qed.

(** Each entry of a scan is the update of the entry before it. *)
Lemma scan_step (s : S) (a : list I) (k : nat) (i : I) :
  nth_error a k = Some i ->
  exists u, nth_error (scan f s a) k = Some u /\
            nth_error (scan f s a) (Datatypes.S k) = Some (f u i).
Proof.
  revert s k; induction a as [|i0 a IH]; intros s [|k] Hk; simpl in *;
    try discriminate.
  - injection Hk as ->. exists s. split; reflexivity.
  - destruct (IH (f s i0) k Hk) as (u & E1 & E2). exists u. split; assumption.
Qed.

Lemma fold_left_concat (s : S) (ls : list (list I)) :
  fold_left f (concat ls) s = fold_left (fun acc p => fold_left f p acc) ls s.
Proof.
  revert s; induction ls as [|p ls IH]; intros s; simpl; [reflexivity|].
  now rewrite fold_left_app, IH.
Qed.
End ScanIndex.

Lemma concat_length_uniform {I : Type} (m : nat) (ls : list (list I)) :
  Forall (fun p => length p = m) ls -> length (concat ls) = length ls * m.
Proof.
  induction 1 as [|p ls Hp _ IH]; simpl; [reflexivity|].
  rewrite length_app, IH, Hp. reflexivity.
Qed.

Lemma firstn_concat_uniform {I : Type} (m : nat) (ls : list (list I)) (e : nat) :
  Forall (fun p => length p = m) ls ->
  firstn (e * m) (concat ls) = concat (firstn e ls).
Proof.
  intros H; revert e; induction H as [|p ls Hp _ IH]; intros e.
  - simpl. now rewrite !firstn_nil.
  - destruct e as [|e]; [reflexivity|].
    cbn [Nat.mul concat firstn]. rewrite <- Hp at 1.
    rewrite firstn_app_2. now rewrite IH.
Qed.

Section DrawFacts.
Context {A Gen : Type} {RG : Rng A Gen} {RS : RngSpec RG}.

Lemma draws_length (n m : nat) (g : Gen) : length (draws n m g) = n.
Proof.
  revert g; induction n as [|n IH]; intros g; simpl; [reflexivity|].
  now rewrite IH.
Qed.

(** Epoch [e] uses the draw made from the generator as the [e] epochs
    before it left it. *)
Lemma draws_nth (n m : nat) (g : Gen) (e : nat) :
  e < n ->
  nth_error (draws n m g) e = Some (fst (choice (gen_after e m g) m)).
Proof.
  revert g e; induction n as [|n IH]; intros g [|e] He; simpl; try lia;
    try reflexivity.
  apply IH. lia.
Qed.

Lemma draws_perm (n m : nat) (g : Gen) :
  Forall (fun p => Permutation p (seq 0 m)) (draws n m g).
Proof.
  revert g; induction n as [|n IH]; intros g; simpl; constructor.
  - apply choice_perm.
  - apply IH.
Qed.

Lemma draws_uniform (n m : nat) (g : Gen) :
  Forall (fun p => length p = m) (draws n m g).
Proof.
  eapply Forall_impl; [|apply draws_perm].
  intros p Hp. apply Permutation_length in Hp. now rewrite length_seq in Hp.
Qed.
End DrawFacts.

Section TrajectoryFacts.
Context {A : Type} {NA : Num A} {S : Type}.
Variable rule : S -> vec A -> A -> A -> S * vec A.
Variables (x y : list A) (start : S * vec A).
Variables (perms : list (list nat)) (m : nat).
Hypothesis uniform : Forall (fun p => length p = m) perms.

Lemma step_values_frozen :
  frozen (point_update rule x y) start (concat perms)
         (step_values rule x y start perms).
Proof.
  intros k Hk. unfold step_values.
  rewrite nth_error_map, scan_nth_error by assumption. reflexivity.
Qed.

Lemma epoch_values_subsequence :
  epoch_subsequence m (length perms)
    (step_values rule x y start perms) (epoch_values rule x y start perms).
Proof.
  unfold epoch_subsequence, step_values, epoch_values.
  rewrite !length_map, !scan_length, (concat_length_uniform m) by assumption.
  split; [reflexivity|]. split; [reflexivity|].
  intros e He.
  rewrite !nth_error_map, !scan_nth_error.
  - rewrite (firstn_concat_uniform m) by assumption.
    rewrite fold_left_concat. reflexivity.
  - rewrite (concat_length_uniform m) by assumption.
    apply Nat.mul_le_mono_r. assumption.
  - assumption.
Qed.
End TrajectoryFacts.

(** ** Batch gradient descent *)

Lemma follows_step {T : Type} (f : T -> result T) (a : T) (l : list T) (k : nat) :
  follows f a l -> k < length l ->
  exists b c, nth_error (a :: l) k = Some b /\ f b = Ok c /\
              nth_error (a :: l) (S k) = Some c.
Proof.
  revert a k; induction l as [|b l IH]; intros a k Hf Hk; simpl in *; [lia|].
  destruct Hf as [Hab Hf]. destruct k as [|k].
  - exists a, b. auto.
  - apply (IH b k Hf). lia.
Qed.

Lemma last_cons {T : Type} (l : list T) (a d : T) : last (a :: l) d = last l a.
Proof.
  revert a d; induction l as [|b l IH]; intros a d; [reflexivity|].
  change (last (a :: b :: l) d) with (last (b :: l) d).
  rewrite !IH. reflexivity.
Qed.

Section BatchFacts.
Context {A Gen : Type} {NA : Num A} {RG : Rng A Gen}.
Variables (eta : A) (x y : list A) (w : loc).
Hypothesis shapes : compatible x y.
Local Open Scope cell_scope.

Lemma batch_body_run (ls : list loc) (st : state A Gen) :
  exists v,
    batch_update eta x y (heap st w) = Ok v /\
    (wv <- load w ;;
     g <- lift (G wv x y) ;;
     isub w (vscale eta g) ;;
     c <- copy w ;;
     ret (ls ++ [c])) st = Ok (ls ++ [next st], after_update st w v).
Proof.
  destruct (G_total (heap st w) x y shapes) as [g Eg].
  exists (vsub (heap st w) (vscale eta g)).
  unfold batch_update, bind, load, lift, isub, copy, bind, load, np_array, ret.
  rewrite Eg. cbn [rbind heap next gen]. rewrite store_same.
  split; reflexivity.
Qed.

Lemma batch_loop_run (n : nat) :
  forall (a : nat) (ls : list loc) (vs : list (vec A)) (st : state A Gen),
    w < next st ->
    snapshots st w ls vs ->
    exists new ls' st',
      for_ (seq a n) (fun _ w_batch =>
          wv <- load w ;;
          g <- lift (G wv x y) ;;
          isub w (vscale eta g) ;;
          c <- copy w ;;
          ret (w_batch ++ [c])) ls st = Ok (ls', st') /\
      snapshots st' w ls' (vs ++ new) /\
      follows (batch_update eta x y) (heap st w) new /\
      length new = n /\
      heap st' w = last new (heap st w) /\
      gen st' = gen st /\
      w < next st'.
Proof.
  induction n as [|n IH]; intros a ls vs st Hw Hs.
  - exists [], ls, st. simpl. rewrite app_nil_r.
    unfold ret. close_run.
  - cbn [seq for_].
    destruct (batch_body_run ls st) as (v & Ev & Erun).
    rewrite (bind_ok _ _ _ _ _ Erun).
    assert (Hw1 : w < next (after_update st w v)) by (simpl; lia).
    destruct (IH (S a) (ls ++ [next st]) (vs ++ [v]) (after_update st w v) Hw1
                (snapshots_after_update_push st w v ls vs Hw Hs))
      as (new & ls' & st' & Erun' & Hs' & Hf & Hl & Hh & Hg & Hw').
    rewrite after_update_w in Hf, Hh by assumption.
    exists (v :: new), ls', st'.
    rewrite <- app_assoc in Hs'.
    split; [exact Erun'|]. split; [exact Hs'|].
    split; [split; assumption|]. split; [simpl; lia|].
    split; [|split; assumption].
    rewrite Hh. symmetry. apply last_cons.
Qed.

(** The batch cell returns the start followed by a chain of full-batch
    updates, one per iteration. *)
Lemma batch_run (epochs : nat) (st : state A Gen) :
  w < next st ->
  exists new st',
    batch_gradient_descent epochs eta x y w st = Ok (heap st w :: new, st') /\
    follows (batch_update eta x y) (heap st w) new /\
    length new = epochs /\
    heap st' w = last new (heap st w) /\
    gen st' = gen st.
Proof.
  intros Hw. unfold batch_gradient_descent.
  rewrite (bind_ok _ _ _ _ _ (copy_run st w)).
  assert (S0 : snapshots st w [] []) by (split; [constructor|reflexivity]).
  pose proof (snapshots_after_copy_push st w [] [] Hw S0) as S1.
  assert (Hw1 : w < next (after_copy st w)) by (simpl; lia).
  destruct (batch_loop_run epochs 0 _ _ (after_copy st w) Hw1 S1)
    as (new & ls' & st' & Erun & Hs & Hf & Hl & Hh & Hg & _).
  rewrite after_copy_w in Hf, Hh by assumption.
  rewrite (bind_ok _ _ _ _ _ Erun).
  exists new, st'. split; [|close_run].
  destruct Hs as [_ Hs]. unfold np_stack. rewrite Hs. reflexivity.
Qed.
End BatchFacts.

(** * The claims *)

(** ** The gradient evaluator *)

(** C2.  Over the reals, for sequences of equal length the evaluator
    returns exactly the vector [[-Σ r_i, -Σ r_i * x_i]] of the
    specification, with [r_i = y_i - w0 - w1*x_i]; the cost function
    returns [1/2 * Σ r_i^2]; and the two components are the partial
    derivatives of that cost in [w0] and in [w1]. *)
Theorem G_is_gradient_of_L (w : vec R) (xs ys : list R) :
  length xs = length ys ->
  G w xs ys = Ok (Spec.gradient w xs ys) /\
  (forall v, L v xs ys = Ok (Spec.loss v xs ys)) /\
  derivable_pt_lim (fun t => Spec.loss (t, snd w) xs ys) (fst w)
                   (fst (Spec.gradient w xs ys)) /\
  derivable_pt_lim (fun t => Spec.loss (fst w, t) xs ys) (snd w)
                   (snd (Spec.gradient w xs ys)).
Proof.
  intros E. split; [|split; [|split]].
  - now apply G_spec_gradient.
  - intros v. now apply L_spec_loss.
  - now apply loss_partial_w0.
  - now apply loss_partial_w1.
Qed.

Lemma G_is_gradient_of_L_witness :
  length [0; 0.5; 1]%R = length [1; 1.5; 2]%R /\
  (G (0, 0)%R [0; 0.5; 1]%R [1; 1.5; 2]%R
   = Ok (Spec.gradient (0, 0)%R [0; 0.5; 1]%R [1; 1.5; 2]%R) /\
   (forall v, L v [0; 0.5; 1]%R [1; 1.5; 2]%R
              = Ok (Spec.loss v [0; 0.5; 1]%R [1; 1.5; 2]%R)) /\
   derivable_pt_lim (fun t => Spec.loss (t, 0%R) [0; 0.5; 1]%R [1; 1.5; 2]%R) 0%R
     (fst (Spec.gradient (0, 0)%R [0; 0.5; 1]%R [1; 1.5; 2]%R)) /\
   derivable_pt_lim (fun t => Spec.loss (0%R, t) [0; 0.5; 1]%R [1; 1.5; 2]%R) 0%R
     (snd (Spec.gradient (0, 0)%R [0; 0.5; 1]%R [1; 1.5; 2]%R))).
Proof.
  split; [reflexivity|].
  exact (G_is_gradient_of_L (0, 0)%R [0; 0.5; 1]%R [1; 1.5; 2]%R eq_refl).
Defined.

(** C7, as the code has it.  The evaluator is a function of its
    arguments alone: run inside a cell it leaves the heap and the
    generator as they were.  It raises [ValueError] exactly when the two
    lengths differ and neither is one; in every other case, two empty
    sequences included, it returns a value. *)
Theorem G_failure_modes {A Gen : Type} {NA : Num A} {RG : Rng A Gen}
    (w : vec A) (xs ys : list A) (st : state A Gen) :
  lift (G w xs ys) st = match G w xs ys with
                        | Ok g => Ok (g, st)
                        | Raise e => Raise e
                        end /\
  ((compatible xs ys /\ exists g, G w xs ys = Ok g) \/
   (length xs <> length ys /\ length xs <> 1 /\ length ys <> 1 /\
    G w xs ys = Raise ValueError)).
Proof.
  split.
  - unfold lift. destruct (G w xs ys); reflexivity.
  - destruct (G w xs ys) as [g|e] eqn:E.
    + left. split; [|eauto].
      destruct (Nat.eq_dec (length xs) (length ys)) as [H|H]; [now left|].
      destruct (Nat.eq_dec (length xs) 1) as [H1|H1]; [right; now left|].
      destruct (Nat.eq_dec (length ys) 1) as [H2|H2]; [right; now right|].
      assert (X : G w xs ys = Raise ValueError).
      { apply G_raises. unfold compatible. tauto. }
      congruence.
    + right. destruct e; [|now apply G_no_index_error in E].
      apply G_raises in E. unfold compatible in E.
      repeat split; try tauto.
Qed.

(** C7 as stated fails.  A one-element [xs] against a longer [ys]
    differs in length and is not rejected: numpy stretches it and a value
    comes back.  Two empty sequences are not rejected either: both sums
    are empty. *)
Lemma G_accepts_malformed_shapes :
  ~ (forall (w : vec R) (xs ys : list R),
        length xs <> length ys -> exists e, G w xs ys = Raise e) /\
  ~ (forall (w : vec R) (xs ys : list R),
        xs = [] \/ ys = [] -> exists e, G w xs ys = Raise e).
Proof.
  split; intros H.
  - destruct (H (0, 0)%R [2%R] [1; 2; 3]%R) as [e E]; [discriminate|].
    discriminate E.
  - destruct (H (0, 0)%R [] []) as [e E]; [now left|].
    discriminate E.
Qed.

(** C8.  For a dataset of equal-length sequences there is a positive
    threshold below which a batch step along the evaluator's gradient does
    not increase the cost. *)
Theorem small_step_does_not_increase_loss (w : vec R) (xs ys : list R) :
  length xs = length ys ->
  xs <> [] ->
  exists g threshold,
    G w xs ys = Ok g /\
    (0 < threshold)%R /\
    forall eta, (0 < eta < threshold)%R ->
      exists l0 l1,
        L w xs ys = Ok l0 /\
        L (vsub w (vscale eta g)) xs ys = Ok l1 /\
        (l1 <= l0)%R.
Proof.
  intros E _.
  destruct (G_total w xs ys (or_introl E)) as [g Eg].
  pose proof (curvature_nonneg g xs) as Hc.
  set (n2 := (fst g ^ 2 + snd g ^ 2)%R).
  assert (Hn : (0 <= n2)%R).
  { unfold n2. pose proof (pow2_ge_0 (fst g)). pose proof (pow2_ge_0 (snd g)). lra. }
  assert (Hstep : forall eta, (eta * curvature g xs <= 2 * n2)%R -> (0 < eta)%R ->
            exists l0 l1, L w xs ys = Ok l0 /\
              L (vsub w (vscale eta g)) xs ys = Ok l1 /\ (l1 <= l0)%R).
  { intros eta Hle Hpos.
    exists (Spec.loss w xs ys), (Spec.loss w xs ys - eta * n2
                                 + eta ^ 2 / 2 * curvature g xs)%R.
    split; [apply L_spec_loss; assumption|].
    split; [apply loss_after_step; assumption|]. nra. }
  destruct (Rle_lt_dec (curvature g xs) 0) as [Hz|Hp].
  - exists g, 1%R. split; [assumption|]. split; [lra|].
    intros eta [Hpos _]. apply Hstep; [|assumption]. nra.
  - destruct (Rle_lt_dec n2 0) as [Hz2|Hp2].
    + (* zero gradient: the step does not move *)
      exists g, 1%R. split; [assumption|]. split; [lra|].
      intros eta [Hpos _].
      assert (Z : (n2 = 0)%R) by lra.
      unfold n2 in Z.
      pose proof (pow2_ge_0 (fst g)). pose proof (pow2_ge_0 (snd g)).
      assert (Z0 : fst g = 0%R) by nra.
      assert (Z1 : snd g = 0%R) by nra.
      exists (Spec.loss w xs ys), (Spec.loss w xs ys).
      split; [apply L_spec_loss; assumption|]. split; [|lra].
      rewrite (loss_after_step eta w g xs ys E Eg). f_equal.
      pose proof (curvature_scale 0 (1, 1)%R xs) as Cs. cbn [fst snd] in Cs.
      destruct g as [g0 g1]. cbn [fst snd] in *. subst g0 g1.
      replace (0 * 1)%R with 0%R in Cs by lra. rewrite Cs. lra.
    + exists g, (2 * n2 / curvature g xs)%R. split; [assumption|].
      split; [apply Rdiv_lt_0_compat; lra|].
      intros eta [Hpos Hlt]. apply Hstep; [|assumption].
      apply Rmult_lt_compat_r with (r := curvature g xs) in Hlt; [|assumption].
      unfold Rdiv in Hlt. rewrite Rmult_assoc, Rinv_l in Hlt by lra. lra.
Qed.

Lemma small_step_does_not_increase_loss_witness :
  length [0; 0.5; 1]%R = length [1; 1.5; 2]%R /\
  [0; 0.5; 1]%R <> [] /\
  exists g threshold,
    G (0, 0)%R [0; 0.5; 1]%R [1; 1.5; 2]%R = Ok g /\
    (0 < threshold)%R /\
    forall eta, (0 < eta < threshold)%R ->
      exists l0 l1,
        L (0, 0)%R [0; 0.5; 1]%R [1; 1.5; 2]%R = Ok l0 /\
        L (vsub (0, 0)%R (vscale eta g)) [0; 0.5; 1]%R [1; 1.5; 2]%R = Ok l1 /\
        (l1 <= l0)%R.
Proof.
  split; [reflexivity|]. split; [discriminate|].
  apply (small_step_does_not_increase_loss (0, 0)%R [0; 0.5; 1]%R [1; 1.5; 2]%R).
  - reflexivity.
  - discriminate.
Defined.

(** ** The end-to-end scenario *)

Ltac run_cell :=
  cbv [outcome scenario_run fresh bind np_array batch_gradient_descent copy
       load lift for_ seq isub np_stack ret G residual broadcast scenario_x
       scenario_y map length Nat.eqb zip_with rbind pysum fold_left vscale
       vsub fst snd store heap next gen app].

(** One batch step of the scenario in exact arithmetic. *)
Lemma scenario_real :
  exists w0 w1,
    outcome (scenario_run (A:=R)) = Ok [w0; w1] /\
    w0 = (0, 0)%R /\ w1 = (0.045, 0.0275)%R.
Proof.
  eexists. eexists. split; [run_cell; reflexivity|].
  real_ops. split; f_equal; lra.
Qed.

(** The same step in binary64: both components are the doubles nearest
    to 0.045 and 0.0275. *)
Lemma scenario_float :
  outcome (scenario_run (A:=PrimFloat.float))
  = Ok [(lit 0, lit 0); (lit 0.045, lit 0.0275)].
Proof. vm_compute. reflexivity. Qed.

(** C1, as the code has it.  From [w = [0, 0]] with [eta = 0.01] on
    [x = [0, 0.5, 1]], [y = [1, 1.5, 2]], one step of batch gradient
    descent yields [w = [0.045, 0.0275]]: exactly over the reals and, in
    binary64, the nearest doubles. *)
Theorem scenario_batch_step :
  (exists w0 w1,
      outcome (scenario_run (A:=R)) = Ok [w0; w1] /\
      close_to 0 w0 (0, 0)%R /\ close_to 0 w1 (0.045, 0.0275)%R) /\
  outcome (scenario_run (A:=PrimFloat.float))
  = Ok [(lit 0, lit 0); (lit 0.045, lit 0.0275)].
Proof.
  split; [|exact scenario_float].
  destruct scenario_real as (w0 & w1 & E & -> & ->).
  exists (0, 0)%R, (0.045, 0.0275)%R.
  split; [exact E|]. unfold close_to; cbn [fst snd]. lra.
Qed.

(** C1 as stated fails: the slope after the step is 0.0275, which is
    0.005 away from the stated 0.0225, in exact arithmetic and in
    binary64 alike. *)
Lemma scenario_slope_is_not_0_0225 :
  ~ (exists w0 w1,
        outcome (scenario_run (A:=R)) = Ok [w0; w1] /\
        close_to 0.001 w1 (0.045, 0.0225)%R) /\
  ~ (exists w0 w1,
        outcome (scenario_run (A:=PrimFloat.float)) = Ok [w0; w1] /\
        float_close_to (lit 0.001) w1 (lit 0.045, lit 0.0225) = true).
Proof.
  split.
  - intros (w0 & w1 & E & C).
    destruct scenario_real as (v0 & v1 & E' & _ & ->).
    rewrite E' in E. injection E as _ <-.
    unfold close_to in C; cbn [fst snd] in C. lra.
  - intros (w0 & w1 & E & C).
    rewrite scenario_float in E. injection E as _ <-.
    vm_compute in C. discriminate C.
Qed.

(** ** The batch update rule *)

(** C3.  From an allocated [w] holding any value and a dataset of
    equal-length sequences, the batch cell returns a trajectory of
    [epochs + 1] entries: the initial [w], then after every iteration the
    value [w - eta * G(w, x, y)] computed from the entry before it on
    the whole dataset; [w] itself ends on the last entry and the random
    generator is not consulted. *)
Theorem batch_trajectory {A Gen : Type} {NA : Num A} {RG : Rng A Gen}
    (epochs : nat) (eta : A) (x y : list A) (w : loc) (st : state A Gen) :
  length x = length y ->
  w < next st ->
  exists w_batch st',
    batch_gradient_descent epochs eta x y w st = Ok (w_batch, st') /\
    length w_batch = S epochs /\
    nth_error w_batch 0 = Some (heap st w) /\
    (forall k, k < epochs ->
       exists wk g,
         nth_error w_batch k = Some wk /\
         G wk x y = Ok g /\
         nth_error w_batch (S k) = Some (vsub wk (vscale eta g))) /\
    heap st' w = last w_batch (heap st w) /\
    gen st' = gen st.
Proof.
  intros E Hw.
  destruct (batch_run eta x y w (or_introl E) epochs st Hw)
    as (new & st' & Erun & Hf & Hl & Hh & Hg).
  exists (heap st w :: new), st'.
  split; [exact Erun|]. split; [simpl; now rewrite Hl|]. split; [reflexivity|].
  split.
  - intros k Hk. rewrite <- Hl in Hk.
    destruct (follows_step _ _ _ k Hf Hk) as (b & c & Eb & Ebc & Ec).
    unfold batch_update in Ebc.
    destruct (G b x y) as [g|e] eqn:Eg; [|discriminate].
    cbn [rbind] in Ebc. injection Ebc as <-.
    exists b, g. auto.
  - split; [|exact Hg]. rewrite Hh. symmetry. apply last_cons.
Qed.

Lemma batch_trajectory_witness :
  let st := after_alloc (fresh (A:=PrimFloat.float)) (lit 0, lit 0) in
  length (scenario_x (A:=PrimFloat.float)) = length (scenario_y (A:=PrimFloat.float)) /\
  0 < next st /\
  exists w_batch st',
    batch_gradient_descent 3 (lit 0.01) scenario_x scenario_y 0 st
    = Ok (w_batch, st') /\
    length w_batch = 4 /\
    nth_error w_batch 0 = Some (heap st 0) /\
    (forall k, k < 3 ->
       exists wk g,
         nth_error w_batch k = Some wk /\
         G wk scenario_x scenario_y = Ok g /\
         nth_error w_batch (S k) = Some (vsub wk (vscale (lit 0.01) g))) /\
    heap st' 0 = last w_batch (heap st 0) /\
    gen st' = gen st.
Proof.
  intros st. split; [reflexivity|]. split; [apply Nat.lt_0_succ|].
  apply (batch_trajectory 3 (lit 0.01) scenario_x scenario_y 0 st).
  - reflexivity.
  - apply Nat.lt_0_succ.
Defined.

(** ** The stochastic update rule *)

(** C4.  With a lawful generator and a dataset of equal-length
    sequences, the stochastic cell draws one index order per epoch from
    the generator as the previous epochs left it, each a permutation of
    all indices; it takes one step [w - eta * G(w, [x_j], [y_j])] per
    index of the concatenated orders, recording [w] after each; and it
    records [w] at every epoch boundary, which is every [m]-th per-step
    entry. *)
Theorem stochastic_trajectory {A Gen : Type} {NA : Num A} {RG : Rng A Gen}
    (RS : RngSpec RG)
    (epochs : nat) (eta : A) (x y : list A) (w_init : vec A)
    (st : state A Gen) :
  length x = length y ->
  let m := length x in
  let perms := draws epochs m (gen st) in
  exists w_stoch w_epoch st',
    stochastic_gradient_descent epochs eta x y w_init st
    = Ok ((w_stoch, w_epoch), st') /\
    (forall e, e < epochs ->
       nth_error perms e = Some (fst (choice (gen_after e m (gen st)) m)) /\
       Permutation (fst (choice (gen_after e m (gen st)) m)) (seq 0 m)) /\
    gen st' = gen_after epochs m (gen st) /\
    length w_stoch = S (epochs * m) /\
    nth_error w_stoch 0 = Some w_init /\
    (forall k j, nth_error (concat perms) k = Some j ->
       exists wk xj yj g,
         nth_error w_stoch k = Some wk /\
         getitem x j = Ok xj /\ getitem y j = Ok yj /\
         G wk [xj] [yj] = Ok g /\
         nth_error w_stoch (S k) = Some (vsub wk (vscale eta g))) /\
    length w_epoch = S epochs /\
    (forall e, e <= epochs -> nth_error w_epoch e = nth_error w_stoch (e * m)).
Proof.
  intros E m perms.
  destruct (stochastic_run x y E epochs eta w_init st) as (st' & Erun & Hg).
  fold m in Erun, Hg. fold perms in Erun.
  pose proof (draws_uniform epochs m (gen st)) as U. fold perms in U.
  pose proof (epoch_values_subsequence (sgd_rule eta) x y (tt, w_init) perms m U)
    as (L1 & L2 & Hsub).
  unfold perms in L1, L2, Hsub at 1. rewrite draws_length in L1, L2, Hsub.
  fold perms in L1, L2, Hsub.
  exists (step_values (sgd_rule eta) x y (tt, w_init) perms),
         (epoch_values (sgd_rule eta) x y (tt, w_init) perms), st'.
  split; [exact Erun|].
  split.
  { intros e He. split; [now apply draws_nth | apply choice_perm]. }
  split; [exact Hg|]. split; [exact L1|]. split; [reflexivity|].
  split; [|split; [exact L2 | exact Hsub]].
  intros k j Hk.
  assert (Hj : j < m).
  { apply nth_error_In in Hk. apply in_concat in Hk.
    destruct Hk as (p & Hp & Hjp).
    pose proof (draws_perm epochs m (gen st)) as P. fold perms in P.
    rewrite Forall_forall in P. apply (Permutation_in _ (P p Hp)) in Hjp.
    apply in_seq in Hjp. lia. }
  destruct (scan_step (point_update (sgd_rule eta) x y) (tt, w_init)
              (concat perms) k j Hk) as (u & E1 & E2).
  exists (snd u), (nth j x (lit 0)), (nth j y (lit 0)),
         (G1 (snd u) (nth j x (lit 0)) (nth j y (lit 0))).
  unfold step_values. rewrite !nth_error_map, E1, E2. cbn [option_map].
  split; [reflexivity|].
  split; [apply getitem_nth; exact Hj|].
  split; [apply getitem_nth; unfold m in Hj; lia|].
  split; reflexivity.
Qed.

Lemma stochastic_trajectory_witness :
  let x := scenario_x (A:=PrimFloat.float) in
  let y := scenario_y (A:=PrimFloat.float) in
  length x = length y /\
  exists w_stoch w_epoch st',
    stochastic_gradient_descent 2 (lit 0.01) x y (lit 0, lit 0) fresh
    = Ok ((w_stoch, w_epoch), st') /\
    (forall e, e < 2 ->
       nth_error (draws 2 3 0) e = Some (fst (choice (gen_after e 3 0) 3)) /\
       Permutation (fst (choice (gen_after e 3 0) 3)) (seq 0 3)) /\
    gen st' = gen_after 2 3 0 /\
    length w_stoch = 7 /\
    nth_error w_stoch 0 = Some (lit 0, lit 0) /\
    (forall k j, nth_error (concat (draws 2 3 0)) k = Some j ->
       exists wk xj yj g,
         nth_error w_stoch k = Some wk /\
         getitem x j = Ok xj /\ getitem y j = Ok yj /\
         G wk [xj] [yj] = Ok g /\
         nth_error w_stoch (S k) = Some (vsub wk (vscale (lit 0.01) g))) /\
    length w_epoch = 3 /\
    (forall e, e <= 2 -> nth_error w_epoch e = nth_error w_stoch (e * 3)).
Proof.
  intros x y. split; [reflexivity|].
  apply (stochastic_trajectory counter_rng_spec 2 (lit 0.01) x y (lit 0, lit 0) fresh).
  reflexivity.
Defined.

(** ** Epoch records and per-step records *)

(** C10.  In each of the three per-point cells, over a lawful generator
    and a dataset of [m] points, the per-step trajectory has
    [epochs * m + 1] entries, the epoch trajectory has [epochs + 1], and
    entry [e] of the latter is entry [e * m] of the former.  Every
    per-step entry still holds the value [w] had right after that many
    updates, although [w] was updated in place afterwards.  In the
    RMSprop cell the epoch trajectory stays a list of array objects; they
    are distinct from [w] and are read in the final heap. *)
Theorem epoch_records_are_step_records {A Gen : Type} {NA : Num A}
    {RG : Rng A Gen} (RS : RngSpec RG)
    (epochs : nat) (eta momentum : A) (x y : list A) (w_init : vec A)
    (st : state A Gen) :
  length x = length y ->
  let m := length x in
  let js := concat (draws epochs m (gen st)) in
  (exists w_stoch w_epoch st',
      stochastic_gradient_descent epochs eta x y w_init st
      = Ok ((w_stoch, w_epoch), st') /\
      epoch_subsequence m epochs w_stoch w_epoch /\
      frozen (point_update (sgd_rule eta) x y) (tt, w_init) js w_stoch) /\
  (exists w_momen w_mepoch st',
      momentum_gradient_descent epochs eta momentum x y w_init st
      = Ok ((w_momen, w_mepoch), st') /\
      epoch_subsequence m epochs w_momen w_mepoch /\
      frozen (point_update (momentum_rule eta momentum) x y)
             ((lit 0.0, lit 0.0), w_init) js w_momen) /\
  (exists w_momen w_mepoch st',
      rmsprop_gradient_descent epochs eta momentum x y w_init st
      = Ok ((w_momen, w_mepoch), st') /\
      Forall (fun l => l < next st' /\ l <> next st) w_mepoch /\
      epoch_subsequence m epochs w_momen (map (heap st') w_mepoch) /\
      frozen (point_update (rmsprop_rule eta momentum) x y)
             ((lit 0, lit 0), w_init) js w_momen).
Proof.
  intros E m js.
  pose proof (draws_uniform epochs m (gen st)) as U.
  assert (Hsub : forall (S : Type) (rule : S -> vec A -> A -> A -> S * vec A)
                        (start : S * vec A),
             epoch_subsequence m epochs
               (step_values rule x y start (draws epochs m (gen st)))
               (epoch_values rule x y start (draws epochs m (gen st)))).
  { intros S rule start.
    pose proof (epoch_values_subsequence rule x y start _ m U) as X.
    now rewrite draws_length in X. }
  split; [|split].
  - destruct (stochastic_run x y E epochs eta w_init st) as (st' & Erun & _).
    eexists _, _, st'. split; [exact Erun|].
    split; [apply Hsub | apply step_values_frozen].
  - destruct (momentum_run x y E epochs eta momentum w_init st) as (st' & Erun & _).
    eexists _, _, st'. split; [exact Erun|].
    split; [apply Hsub | apply step_values_frozen].
  - destruct (rmsprop_run x y E epochs eta momentum w_init st)
      as (le & st' & Erun & [Hf Hv] & _).
    eexists _, le, st'. split; [exact Erun|]. split; [exact Hf|].
    rewrite Hv. split; [apply Hsub | apply step_values_frozen].
Qed.

Lemma epoch_records_are_step_records_witness :
  let x := scenario_x (A:=PrimFloat.float) in
  let y := scenario_y (A:=PrimFloat.float) in
  let w_init := (lit 0, lit 0) in
  length x = length y /\
  exists w_momen w_mepoch st',
    rmsprop_gradient_descent 2 (lit 0.0001) (lit 0.9) x y w_init fresh
    = Ok ((w_momen, w_mepoch), st') /\
    Forall (fun l => l < next st' /\ l <> next (fresh (A:=PrimFloat.float)))
           w_mepoch /\
    epoch_subsequence 3 2 w_momen (map (heap st') w_mepoch) /\
    frozen (point_update (rmsprop_rule (lit 0.0001) (lit 0.9)) x y)
           ((lit 0, lit 0), w_init) (concat (draws 2 3 0)) w_momen.
Proof.
  intros x y w_init. split; [reflexivity|].
  apply (epoch_records_are_step_records counter_rng_spec 2 (lit 0.0001) (lit 0.9)
           x y w_init fresh).
  reflexivity.
Defined.

(** ** Momentum *)

Section ScanSimulation.
Context {S1 S2 V I : Type}.
Variable f1 : S1 * V -> I -> S1 * V.
Variable f2 : S2 * V -> I -> S2 * V.
Hypothesis step : forall a b i, snd a = snd b -> snd (f1 a i) = snd (f2 b i).

Lemma fold_snd_sim (items : list I) :
  forall a b, snd a = snd b ->
              snd (fold_left f1 items a) = snd (fold_left f2 items b).
Proof.
  induction items as [|i items IH]; intros a b E; simpl; [exact E|].
  apply IH. now apply step.
Qed.

Lemma scan_snd_sim (items : list I) :
  forall a b, snd a = snd b ->
              map snd (scan f1 a items) = map snd (scan f2 b items).
Proof.
  unfold scan.
  induction items as [|i items IH]; intros a b E; simpl; [now rewrite E|].
  rewrite E. f_equal.
  specialize (IH (f1 a i) (f2 b i) (step a b i E)).
  simpl in IH. exact IH.
Qed.
End ScanSimulation.

Lemma momentum_zero_point (eta : R) (x y : list R)
    (a : vec R * vec R) (b : unit * vec R) (j : nat) :
  snd a = snd b ->
  snd (point_update (momentum_rule eta 0%R) x y a j) =
  snd (point_update (sgd_rule eta) x y b j).
Proof.
  destruct a as [d w], b as [u w']. cbn [snd]. intros <-.
  unfold point_update, momentum_rule, sgd_rule, vsub, vscale, vadd.
  real_ops. f_equal; field.
Qed.

(** C5.  Over the reals, with momentum coefficient 0 the momentum cell
    returns the same per-step and epoch trajectories as the stochastic
    cell started from the same [w] and the same generator state, hence
    over the same sequence of sampled points. *)
Theorem momentum_zero_is_stochastic {Gen : Type} {RG : Rng R Gen}
    (RS : RngSpec RG)
    (epochs : nat) (eta : R) (x y : list R) (w_init : vec R)
    (st : state R Gen) :
  length x = length y ->
  exists w_steps w_epochs st1 st2,
    momentum_gradient_descent epochs eta 0%R x y w_init st
    = Ok ((w_steps, w_epochs), st1) /\
    stochastic_gradient_descent epochs eta x y w_init st
    = Ok ((w_steps, w_epochs), st2) /\
    gen st1 = gen st2.
Proof.
  intros E.
  destruct (momentum_run x y E epochs eta 0%R w_init st) as (st1 & E1 & G1).
  destruct (stochastic_run x y E epochs eta w_init st) as (st2 & E2 & G2).
  eexists _, _, st1, st2. split; [exact E1|].
  split; [|congruence].
  rewrite E2. do 3 f_equal.
  - symmetry. unfold step_values.
    apply scan_snd_sim; [|reflexivity].
    intros a b i. apply momentum_zero_point.
  - symmetry. unfold epoch_values.
    apply scan_snd_sim; [|reflexivity].
    intros a b p Eab. unfold epoch_update.
    apply fold_snd_sim; [|exact Eab].
    intros a' b' i. apply momentum_zero_point.
Qed.

Lemma momentum_zero_is_stochastic_witness :
  let x := scenario_x (A:=R) in
  let y := scenario_y (A:=R) in
  length x = length y /\
  exists w_steps w_epochs st1 st2,
    momentum_gradient_descent 2 0.01%R 0%R x y (0, 0)%R fresh
    = Ok ((w_steps, w_epochs), st1) /\
    stochastic_gradient_descent 2 0.01%R x y (0, 0)%R fresh
    = Ok ((w_steps, w_epochs), st2) /\
    gen st1 = gen st2.
Proof.
  intros x y. split; [reflexivity|].
  apply (momentum_zero_is_stochastic counter_rng_spec 2 0.01%R x y (0, 0)%R fresh).
  reflexivity.
Defined.

(** The same coincidence on the scenario's data in binary64, for two
    epochs of the counter generator. *)
Lemma momentum_zero_is_stochastic_binary64 :
  outcome (momentum_gradient_descent 2 (lit 0.01) (lit 0)
             (scenario_x (A:=PrimFloat.float)) scenario_y (lit 0, lit 0))
  = outcome (stochastic_gradient_descent 2 (lit 0.01)
               (scenario_x (A:=PrimFloat.float)) scenario_y (lit 0, lit 0)).
Proof. vm_compute. reflexivity. Qed.

(** In binary64 the coincidence is up to the sign of a zero.  From
    [w = [-0., 0.]] on the single point [(1, 0)] the residual is zero,
    the stochastic step subtracts [eta * -0.] and yields [+0.], the
    momentum step subtracts [eta * (0.*0. + 1.*(-0.))], that is
    [eta * +0.], and yields [-0.]; the two compare equal. *)
Lemma momentum_zero_binary64_signed_zero :
  let w_init := (PrimFloat.opp (lit 0), lit 0) in
  let run_m := outcome (momentum_gradient_descent 1 (lit 0.01) (lit 0)
                          [lit 1] [lit 0] w_init) in
  let run_s := outcome (stochastic_gradient_descent 1 (lit 0.01)
                          [lit 1] [lit 0] w_init) in
  exists wm ws,
    run_m = Ok ([w_init; wm], [w_init; wm]) /\
    run_s = Ok ([w_init; ws], [w_init; ws]) /\
    wm <> ws /\
    PrimFloat.eqb (fst wm) (fst ws) = true /\
    PrimFloat.eqb (snd wm) (snd ws) = true.
Proof.
  exists (PrimFloat.opp (lit 0), lit 0), (lit 0, lit 0).
  split; [vm_compute; reflexivity|].
  split; [vm_compute; reflexivity|].
  split; [|split; vm_compute; reflexivity].
  intros E. apply (f_equal fst) in E. cbn [fst] in E.
  apply (f_equal (PrimFloat.div (lit 1))) in E.
  vm_compute in E. discriminate E.
Qed.

(** ** RMSprop *)

Lemma rmsprop_first_average (momentum : R) (gradient : vec R) :
  rmsprop_average momentum (lit 0, lit 0) gradient =
  (((1 - momentum) * fst gradient ^ 2)%R, ((1 - momentum) * snd gradient ^ 2)%R).
Proof.
  unfold rmsprop_average, vadd, vscale, vsquare. real_ops.
  f_equal; field.
Qed.

Lemma rmsprop_first_denominator_value (momentum : R) (gradient : vec R) :
  rmsprop_denominator (rmsprop_average momentum (lit 0, lit 0) gradient) =
  ((sqrt ((1 - momentum) * fst gradient ^ 2) + 1e-8)%R,
   (sqrt ((1 - momentum) * snd gradient ^ 2) + 1e-8)%R).
Proof.
  rewrite rmsprop_first_average.
  unfold rmsprop_denominator, vadd_scalar, np_sqrt. real_ops.
  f_equal; f_equal; lra.
Qed.

(** C6.  Over the reals, with the decay coefficient in [0, 1): on the
    first step of the RMSprop cell, taken at the first index [j] of the
    first epoch's order with [g2] still zero, the denominator is
    [sqrt((1 - momentum) * gradient^2) + 1e-8] in each component, the
    square roots are of non-negative numbers, both components are
    strictly positive, and the first recorded step is
    [w - eta * gradient / denominator]. *)
Theorem rmsprop_first_step {Gen : Type} {RG : Rng R Gen} (RS : RngSpec RG)
    (epochs : nat) (eta momentum : R) (x y : list R) (w_init : vec R)
    (st : state R Gen) :
  length x = length y ->
  x <> [] ->
  (0 <= momentum < 1)%R ->
  let j := hd 0 (fst (choice (gen st) (length x))) in
  let gradient := G1 w_init (nth j x (lit 0)) (nth j y (lit 0)) in
  let den := ((sqrt ((1 - momentum) * fst gradient ^ 2) + 1e-8)%R,
              (sqrt ((1 - momentum) * snd gradient ^ 2) + 1e-8)%R) in
  rmsprop_denominator (rmsprop_average momentum (lit 0, lit 0) gradient) = den /\
  (0 <= (1 - momentum) * fst gradient ^ 2)%R /\
  (0 <= (1 - momentum) * snd gradient ^ 2)%R /\
  (0 < fst den)%R /\ (0 < snd den)%R /\
  exists w_momen w_mepoch st',
    rmsprop_gradient_descent (S epochs) eta momentum x y w_init st
    = Ok ((w_momen, w_mepoch), st') /\
    nth_error w_momen 1 = Some (vsub w_init (vdiv (vscale eta gradient) den)).
Proof.
  intros E Hx Hm j gradient den.
  assert (P0 : (0 <= (1 - momentum) * fst gradient ^ 2)%R).
  { pose proof (pow2_ge_0 (fst gradient)). nra. }
  assert (P1 : (0 <= (1 - momentum) * snd gradient ^ 2)%R).
  { pose proof (pow2_ge_0 (snd gradient)). nra. }
  split; [apply rmsprop_first_denominator_value|].
  split; [exact P0|]. split; [exact P1|].
  split; [|split].
  - unfold den; cbn [fst]. pose proof (sqrt_pos ((1 - momentum) * fst gradient ^ 2)). lra.
  - unfold den; cbn [snd]. pose proof (sqrt_pos ((1 - momentum) * snd gradient ^ 2)). lra.
  - destruct (rmsprop_run x y E (S epochs) eta momentum w_init st)
      as (le & st' & Erun & _ & _).
    eexists _, le, st'. split; [exact Erun|].
    cbn [draws concat].
    pose proof (choice_perm (gen st) (length x)) as P.
    subst den gradient j.
    destruct (fst (choice (gen st) (length x))) as [|j0 p] eqn:Ep.
    + apply Permutation_length in P. rewrite length_seq in P.
      destruct x; [contradiction | discriminate].
    + unfold step_values. rewrite nth_error_map.
      rewrite (scan_nth_error _ _ _ 1) by (simpl; lia).
      cbn [concat app firstn fold_left option_map hd].
      unfold point_update, rmsprop_rule. cbn [fst snd].
      rewrite rmsprop_first_denominator_value. reflexivity.
Qed.

Lemma rmsprop_first_step_witness :
  let x := scenario_x (A:=R) in
  let y := scenario_y (A:=R) in
  let st := fresh (A:=R) in
  let j := hd 0 (fst (choice (gen st) (length x))) in
  let gradient := G1 (0, 0)%R (nth j x (lit 0)) (nth j y (lit 0)) in
  let den := ((sqrt ((1 - 0.9) * fst gradient ^ 2) + 1e-8)%R,
              (sqrt ((1 - 0.9) * snd gradient ^ 2) + 1e-8)%R) in
  length x = length y /\ x <> [] /\ (0 <= 0.9 < 1)%R /\
  rmsprop_denominator (rmsprop_average 0.9%R (lit 0, lit 0) gradient) = den /\
  (0 <= (1 - 0.9) * fst gradient ^ 2)%R /\
  (0 <= (1 - 0.9) * snd gradient ^ 2)%R /\
  (0 < fst den)%R /\ (0 < snd den)%R /\
  exists w_momen w_mepoch st',
    rmsprop_gradient_descent 1 0.0001%R 0.9%R x y (0, 0)%R st
    = Ok ((w_momen, w_mepoch), st') /\
    nth_error w_momen 1
    = Some (vsub (0, 0)%R (vdiv (vscale 0.0001%R gradient) den)).
Proof.
  intros x y st j gradient den.
  split; [reflexivity|]. split; [discriminate|]. split; [lra|].
  apply (rmsprop_first_step counter_rng_spec 0 0.0001%R 0.9%R x y (0, 0)%R st).
  - reflexivity.
  - discriminate.
  - lra.
Defined.

(** ** The dataset *)

Lemma zip_with_nth_error {A : Type} (op : A -> A -> A) (a b : list A)
    (i : nat) (u v : A) :
  nth_error a i = Some u -> nth_error b i = Some v ->
  nth_error (zip_with op a b) i = Some (op u v).
Proof.
  revert b i; induction a as [|a0 a IH]; intros [|b0 b] [|i] Ha Hb;
    simpl in *; try discriminate.
  - congruence.
  - now apply IH.
Qed.

(** What the dataset cell returns, for any lawful generator. *)
Lemma make_dataset_run {A Gen : Type} {NA : Num A} {RG : Rng A Gen}
    (RS : RngSpec RG) (st : state A Gen) :
  let x := np_linspace (lit 0) (lit 1) 21 in
  let noise := fst (randn (gen st) 21) in
  make_dataset st =
  Ok ((x, map (fun ti => (ti + lit 1.0)%num)
              (zip_with add x (map (fun zi => (zi * lit 0.1)%num) noise))),
      mkState (heap st) (next st) (snd (randn (gen st) 21))).
Proof.
  intros x noise. unfold make_dataset. fold x.
  change (length x) with 21.
  unfold bind at 1. unfold random_randn.
  pose proof (randn_length (gen st) 21) as Hl. fold noise in Hl.
  subst noise.
  destruct (randn (gen st) 21) as [z g]. cbn [fst snd] in *.
  rewrite broadcast_same by (rewrite length_map, Hl; reflexivity).
  reflexivity.
Qed.

(** Over the reals the independent values are [i / 20]: evenly spaced
    from 0 to 1. *)
Lemma linspace_real (i : nat) :
  i < 21 ->
  nth_error (np_linspace (A:=R) (lit 0) (lit 1) 21) i = Some (INR i / 20)%R.
Proof.
  intros Hi.
  do 21 (destruct i as [|i];
         [cbv [np_linspace lit_nat map seq app nth_error Z.of_nat inject_Z
                Pos.of_succ_nat Pos.succ INR];
          real_ops; f_equal; field|]).
  lia.
Qed.

(** The dependent values add one tenth of the generator's draw. *)
Lemma dataset_points {Gen : Type} {RG : Rng R Gen} (RS : RngSpec RG)
    (st : state R Gen) (i : nat) :
  i < 21 ->
  exists x y st' zi,
    make_dataset st = Ok ((x, y), st') /\
    nth_error (fst (randn (gen st) 21)) i = Some zi /\
    nth_error x i = Some (INR i / 20)%R /\
    nth_error y i = Some (INR i / 20 + zi * 0.1 + 1.0)%R.
Proof.
  intros Hi.
  destruct (nth_error (fst (randn (gen st) 21)) i) as [zi|] eqn:Ez.
  - eexists _, _, _, zi. split; [apply (make_dataset_run RS)|].
    split; [reflexivity|]. split; [now apply linspace_real|].
    rewrite nth_error_map.
    rewrite (zip_with_nth_error _ _ _ i (INR i / 20)%R (zi * lit 0.1)%num).
    + cbn [option_map]. real_ops. f_equal; try lra.
    + now apply linspace_real.
    + rewrite nth_error_map, Ez. reflexivity.
  - apply nth_error_None in Ez. rewrite randn_length in Ez. lia.
Qed.

(** C9 on the code: with a generator whose first normal draw is 1, the
    first dependent value is [0 + 0.1 * 1 + 1.0 = 1.1], not the
    [0 + 1 + 1.0 = 2] that unscaled standard-normal noise would give. *)
Theorem dataset_noise_is_scaled :
  exists x y st' z0,
    make_dataset (A:=R) fresh = Ok ((x, y), st') /\
    nth_error (fst (randn (gen (fresh (A:=R))) 21)) 0 = Some z0 /\
    z0 = 1%R /\
    nth_error x 0 = Some 0%R /\
    nth_error y 0 = Some 1.1%R /\
    nth_error y 0 <> Some (0 + z0 + 1.0)%R.
Proof.
  destruct (dataset_points counter_rng_spec (fresh (A:=R)) 0 (Nat.lt_0_succ 20))
    as (x & y & st' & z0 & Erun & Ez & Ex & Ey).
  assert (Z : z0 = 1%R).
  { cbv [randn counter_rng fresh gen fst map seq nth_error lit_nat Nat.add
         Z.of_nat inject_Z Pos.of_succ_nat] in Ez.
    injection Ez as <-. real_ops. lra. }
  exists x, y, st', z0.
  split; [exact Erun|]. split; [exact Ez|]. split; [exact Z|].
  rewrite Ex, Ey. subst z0. cbn [INR].
  split; [f_equal; lra|]. split; [f_equal; lra|].
  intros H. injection H as H. lra.
Qed.

(** * Further properties of the code *)

(** ** The cost function and the zeros of its gradient *)

Section CostFacts.
Local Open Scope R_scope.

Lemma sum2_squares_nonneg (w : vec R) (x y : list R) :
  0 <= sum2 (fun xi yi => res w xi yi ^ 2) x y.
Proof.
  revert y; induction x as [|xi x IH]; intros [|yi y]; cbn [sum2]; try lra.
  pose proof (IH y). pose proof (pow2_ge_0 (res w xi yi)). lra.
Qed.

Lemma sum2_squares_zero (w : vec R) (x y : list R) :
  length x = length y ->
  sum2 (fun xi yi => res w xi yi ^ 2) x y = 0 <->
  Forall2 (fun xi yi => yi = fst w + snd w * xi) x y.
Proof.
  revert y; induction x as [|xi x IH]; intros [|yi y] E; cbn [sum2 length] in *;
    try easy.
  specialize (IH y (eq_add_S _ _ E)).
  pose proof (sum2_squares_nonneg w x y).
  pose proof (pow2_ge_0 (res w xi yi)).
  split.
  - intros Z. constructor.
    + assert (R0 : res w xi yi ^ 2 = 0) by lra.
      unfold res in R0. nra.
    + apply IH. lra.
  - intros F. inversion F as [|? ? ? ? Hh Ht]; subst.
    apply IH in Ht. rewrite Ht. unfold res. ring.
Qed.

(** The two residual sums in terms of the five sums of the normal
    equations. *)
Lemma residual_sums (w : vec R) (x y : list R) :
  length x = length y ->
  sum2 (res w) x y = rsum y - INR (length x) * fst w - snd w * rsum x /\
  sum2 (fun xi yi => res w xi yi * xi) x y =
  rsum (zip_with Rmult x y) - fst w * rsum x
  - snd w * rsum (map (fun xi => xi * xi) x).
Proof.
  revert y; induction x as [|xi x IH]; intros [|yi y] E; try easy.
  - simpl. split; lra.
  - destruct (IH y (eq_add_S _ _ E)) as [I0 I1].
    change (length (xi :: x)) with (S (length x)). rewrite S_INR.
    cbn [sum2 rsum fold_right zip_with map]. fold (rsum x) (rsum y).
    fold (rsum (zip_with Rmult x y)) (rsum (map (fun xi => xi * xi) x)).
    rewrite I0, I1. unfold res. split; ring.
Qed.
End CostFacts.

(** X1.  Over the reals, on sequences of equal length the cost function
    returns a non-negative number, and it returns zero exactly when the
    line [w0 + w1*x] passes through every data point. *)
Theorem L_zero_iff_exact_fit (w : vec R) (xs ys : list R) :
  length xs = length ys ->
  exists l,
    L w xs ys = Ok l /\
    (0 <= l)%R /\
    (l = 0%R <-> Forall2 (fun xi yi => yi = fst w + snd w * xi)%R xs ys).
Proof.
  intros E. eexists. split; [apply L_real; exact E|].
  pose proof (sum2_squares_nonneg w xs ys) as N.
  pose proof (sum2_squares_zero w xs ys E) as Z.
  split; [lra|].
  split; intros H.
  - apply Z. lra.
  - apply Z in H. rewrite H. lra.
Qed.

Lemma L_zero_iff_exact_fit_witness :
  length [0; 0.5; 1]%R = length [1; 1.5; 2]%R /\
  exists l,
    L (1, 1)%R [0; 0.5; 1]%R [1; 1.5; 2]%R = Ok l /\
    (0 <= l)%R /\
    (l = 0%R <->
     Forall2 (fun xi yi => yi = fst (1, 1)%R + snd (1, 1)%R * xi)%R
             [0; 0.5; 1]%R [1; 1.5; 2]%R).
Proof.
  split; [reflexivity|].
  apply (L_zero_iff_exact_fit (1, 1)%R [0; 0.5; 1]%R [1; 1.5; 2]%R).
  reflexivity.
Defined.

(** X2.  Over the reals, a parameter vector at which the evaluator
    returns the zero vector minimises the cost: no other vector has a
    smaller one on the same data. *)
Theorem zero_gradient_minimises_L (w v : vec R) (xs ys : list R) :
  length xs = length ys ->
  G w xs ys = Ok (0, 0)%R ->
  exists lw lv,
    L w xs ys = Ok lw /\ L v xs ys = Ok lv /\ (lw <= lv)%R.
Proof.
  intros E HG. rewrite G_real in HG by assumption.
  injection HG as H0 H1.
  exists (Spec.loss w xs ys), (Spec.loss v xs ys).
  split; [now apply L_spec_loss|]. split; [now apply L_spec_loss|].
  rewrite !spec_loss_sum2 by assumption.
  pose proof (squares_expand w (fst v - fst w, snd v - snd w)%R xs ys E) as X.
  cbn [fst snd] in X.
  replace (fst w + (fst v - fst w), snd w + (snd v - snd w))%R with v in X
    by (destruct v; cbn [fst snd]; f_equal; ring).
  pose proof (curvature_nonneg (fst v - fst w, snd v - snd w)%R xs) as C.
  rewrite X.
  assert (Z0 : sum2 (res w) xs ys = 0%R) by lra.
  assert (Z1 : sum2 (fun xi yi => (res w xi yi * xi)%R) xs ys = 0%R) by lra.
  rewrite Z0, Z1. lra.
Qed.

Lemma zero_gradient_minimises_L_witness :
  length [0; 0.5; 1]%R = length [1; 1.5; 2]%R /\
  G (1, 1)%R [0; 0.5; 1]%R [1; 1.5; 2]%R = Ok (0, 0)%R /\
  exists lw lv,
    L (1, 1)%R [0; 0.5; 1]%R [1; 1.5; 2]%R = Ok lw /\
    L (0, 0)%R [0; 0.5; 1]%R [1; 1.5; 2]%R = Ok lv /\ (lw <= lv)%R.
Proof.
  assert (HG : G (1, 1)%R [0; 0.5; 1]%R [1; 1.5; 2]%R = Ok (0, 0)%R).
  { rewrite G_real by reflexivity. cbn [sum2]. unfold res. cbn [fst snd].
    f_equal. f_equal; lra. }
  split; [reflexivity|]. split; [exact HG|].
  apply (zero_gradient_minimises_L (1, 1)%R (0, 0)%R [0; 0.5; 1]%R [1; 1.5; 2]%R).
  - reflexivity.
  - exact HG.
Defined.

(** X3.  Over the reals, the evaluator returns the zero vector exactly
    at the solutions of the normal equations
    [m*w0 + (Σx)*w1 = Σy] and [(Σx)*w0 + (Σx²)*w1 = Σxy]. *)
Theorem zero_gradient_iff_normal_equations (w : vec R) (xs ys : list R) :
  length xs = length ys ->
  G w xs ys = Ok (0, 0)%R <->
  (INR (length xs) * fst w + rsum xs * snd w = rsum ys /\
   rsum xs * fst w + rsum (map (fun xi => xi * xi) xs) * snd w
   = rsum (zip_with Rmult xs ys))%R.
Proof.
  intros E. rewrite G_real by assumption.
  destruct (residual_sums w xs ys E) as [-> ->].
  split.
  - intros H. injection H as H0 H1. split; lra.
  - intros [H0 H1]. f_equal. f_equal; lra.
Qed.

Lemma zero_gradient_iff_normal_equations_witness :
  length [0; 0.5; 1]%R = length [1; 1.5; 2]%R /\
  (G (1, 1)%R [0; 0.5; 1]%R [1; 1.5; 2]%R = Ok (0, 0)%R <->
   (INR (length [0; 0.5; 1]%R) * 1 + rsum [0; 0.5; 1] * 1 = rsum [1; 1.5; 2] /\
    rsum [0; 0.5; 1] * 1 + rsum (map (fun xi => xi * xi) [0; 0.5; 1]) * 1
    = rsum (zip_with Rmult [0; 0.5; 1] [1; 1.5; 2]))%R).
Proof.
  split; [reflexivity|].
  apply (zero_gradient_iff_normal_equations (1, 1)%R [0; 0.5; 1]%R [1; 1.5; 2]%R).
  reflexivity.
Defined.

(** ** Stochastic steps against the batch step *)

Section LinearityFacts.
Local Open Scope R_scope.

Lemma vsum_perm (l l' : list (vec R)) : Permutation l l' -> vsum l = vsum l'.
Proof.
  induction 1 as [|a l l' _ IH|a b l|l l' l'' _ IH1 _ IH2]; cbn [vsum fold_right].
  - reflexivity.
  - fold (vsum l) (vsum l'). now rewrite IH.
  - fold (vsum l). unfold vadd. real_ops. f_equal; ring.
  - congruence.
Qed.

Lemma map_seq_nth {T U : Type} (F : T -> T -> U) (d e : T) (x y : list T) :
  length x = length y ->
  map (fun j => F (nth j x d) (nth j y e)) (seq 0 (length x)) =
  map (fun p => F (fst p) (snd p)) (combine x y).
Proof.
  revert y; induction x as [|xi x IH]; intros [|yi y] E; try easy.
  cbn [length seq map combine fst snd nth]. f_equal.
  rewrite <- seq_shift, map_map. cbn [nth].
  apply IH. now injection E.
Qed.

Lemma vsum_point_gradients (w : vec R) (x y : list R) :
  vsum (map (fun p => G1 w (fst p) (snd p)) (combine x y)) =
  (- sum2 (res w) x y, - sum2 (fun xi yi => res w xi yi * xi) x y).
Proof.
  revert y; induction x as [|xi x IH]; intros [|yi y];
    cbn [combine map vsum fold_right sum2]; try (f_equal; lra).
  fold (vsum (map (fun p => G1 w (fst p) (snd p)) (combine x y))).
  rewrite IH. unfold vadd, G1, res. real_ops. f_equal; lra.
Qed.
End LinearityFacts.

(** X4.  Over the reals, the gradients the stochastic cell evaluates at
    the single points of a dataset, taken at one common [w] and in any
    order that visits every index once, add up to the gradient the batch
    cell evaluates on the whole dataset. *)
Theorem single_point_gradients_sum_to_batch (w : vec R) (xs ys : list R)
    (p : list nat) :
  length xs = length ys ->
  Permutation p (seq 0 (length xs)) ->
  exists gs g,
    Forall2 (fun j gj => exists xj yj,
                 getitem xs j = Ok xj /\ getitem ys j = Ok yj /\
                 G w [xj] [yj] = Ok gj) p gs /\
    G w xs ys = Ok g /\
    vsum gs = g.
Proof.
  intros E P.
  exists (map (fun j => G1 w (nth j xs (lit 0)) (nth j ys (lit 0))) p).
  eexists. split; [|split; [apply G_real; exact E|]].
  - assert (F : Forall (fun j => j < length xs) p).
    { apply Forall_forall. intros j Hj.
      apply (Permutation_in _ P) in Hj. apply in_seq in Hj. lia. }
    clear P. induction F as [|j p Hj _ IH]; cbn [map]; constructor; [|exact IH].
    exists (nth j xs (lit 0)), (nth j ys (lit 0)).
    split; [now apply getitem_nth|].
    split; [apply getitem_nth; lia | reflexivity].
  - rewrite (vsum_perm _ _ (Permutation_map _ P)).
    rewrite (map_seq_nth (G1 w)) by assumption.
    apply vsum_point_gradients.
Qed.

Lemma single_point_gradients_sum_to_batch_witness :
  let xs := [0; 0.5; 1]%R in
  let ys := [1; 1.5; 2]%R in
  length xs = length ys /\
  Permutation [2; 0; 1] (seq 0 (length xs)) /\
  exists gs g,
    Forall2 (fun j gj => exists xj yj,
                 getitem xs j = Ok xj /\ getitem ys j = Ok yj /\
                 G (0, 0)%R [xj] [yj] = Ok gj) [2; 0; 1] gs /\
    G (0, 0)%R xs ys = Ok g /\
    vsum gs = g.
Proof.
  intros xs ys.
  assert (P : Permutation [2; 0; 1] (seq 0 (length xs))).
  { cbn [xs length seq].
    apply (Permutation_cons_app [0; 1] [] 2).
    cbn [app]. apply Permutation_refl. }
  split; [reflexivity|]. split; [exact P|].
  apply (single_point_gradients_sum_to_batch (0, 0)%R xs ys [2; 0; 1]).
  - reflexivity.
  - exact P.
Defined.

(** ** The batch trajectory and the cost *)

Section BatchCostFacts.
Local Open Scope R_scope.

(** Cauchy-Schwarz on each term of the curvature. *)
Lemma curvature_bound (g : vec R) (x : list R) :
  curvature g x <=
  (INR (length x) + rsum (map (fun xi => xi * xi) x)) * (fst g ^ 2 + snd g ^ 2).
Proof.
  induction x as [|xi x IH].
  - cbn [curvature fold_right length map rsum INR]. lra.
  - change (length (xi :: x)) with (S (length x)). rewrite S_INR.
    cbn [curvature fold_right map rsum]. fold (curvature g x).
    fold (rsum (map (fun xi => xi * xi) x)).
    pose proof (pow2_ge_0 (fst g * xi - snd g)). nra.
Qed.

Lemma step_does_not_increase (eta : R) (w g : vec R) (x y : list R) :
  length x = length y ->
  G w x y = Ok g ->
  0 <= eta ->
  eta * (INR (length x) + rsum (map (fun xi => xi * xi) x)) <= 2 ->
  exists l0 l1,
    L w x y = Ok l0 /\ L (vsub w (vscale eta g)) x y = Ok l1 /\ l1 <= l0.
Proof.
  intros E HG He Hb.
  exists (Spec.loss w x y),
         (Spec.loss w x y - eta * (fst g ^ 2 + snd g ^ 2)
          + eta ^ 2 / 2 * curvature g x).
  split; [now apply L_spec_loss|]. split; [now apply loss_after_step|].
  pose proof (curvature_bound g x) as Cb.
  pose proof (curvature_nonneg g x) as Cn.
  set (K := INR (length x) + rsum (map (fun xi => xi * xi) x)) in *.
  set (n2 := fst g ^ 2 + snd g ^ 2) in *.
  assert (Hn : 0 <= n2).
  { unfold n2. pose proof (pow2_ge_0 (fst g)). pose proof (pow2_ge_0 (snd g)). lra. }
  assert (H1 : eta ^ 2 * curvature g x <= eta ^ 2 * (K * n2)).
  { apply Rmult_le_compat_l; [apply pow2_ge_0 | exact Cb]. }
  assert (H2 : eta ^ 2 * (K * n2) <= 2 * eta * n2).
  { replace (eta ^ 2 * (K * n2)) with ((eta * K) * (eta * n2)) by ring.
    replace (2 * eta * n2) with (2 * (eta * n2)) by ring.
    apply Rmult_le_compat_r; [nra | exact Hb]. }
  lra.
Qed.

Lemma follows_constant {T : Type} (f : T -> result T) (a : T) (l : list T) :
  f a = Ok a -> follows f a l -> l = repeat a (length l).
Proof.
  intros Ha. induction l as [|b l IH]; intros Hf; [reflexivity|].
  destruct Hf as [Hb Hf]. rewrite Ha in Hb. injection Hb as <-.
  cbn [length repeat]. f_equal. now apply IH.
Qed.

Lemma last_repeat {T : Type} (a : T) (n : nat) : last (repeat a n) a = a.
Proof.
  induction n as [|n IH]; [reflexivity|].
  change (repeat a (S n)) with (a :: repeat a n). now rewrite last_cons.
Qed.
End BatchCostFacts.

(** X5.  Over the reals, when the learning rate is non-negative and
    [eta * (m + Σ x_i²) <= 2], the cost never increases from one entry of
    the batch trajectory to the next, whatever the dependent values and
    the starting point. *)
Theorem batch_cost_never_increases {Gen : Type} {RG : Rng R Gen}
    (epochs : nat) (eta : R) (x y : list R) (w : loc) (st : state R Gen) :
  length x = length y ->
  w < next st ->
  (0 <= eta)%R ->
  (eta * (INR (length x) + rsum (map (fun xi => xi * xi) x)) <= 2)%R ->
  exists w_batch st',
    batch_gradient_descent epochs eta x y w st = Ok (w_batch, st') /\
    forall k a b,
      nth_error w_batch k = Some a ->
      nth_error w_batch (S k) = Some b ->
      exists la lb, L a x y = Ok la /\ L b x y = Ok lb /\ (lb <= la)%R.
Proof.
  intros E Hw He Hb.
  destruct (batch_run eta x y w (or_introl E) epochs st Hw)
    as (new & st' & Erun & Hf & Hl & _).
  exists (heap st w :: new), st'. split; [exact Erun|].
  intros k a b Ha Hb'.
  assert (Hk : k < length new).
  { apply nth_error_Some. cbn [nth_error] in Hb'. congruence. }
  destruct (follows_step _ _ _ k Hf Hk) as (a' & b' & Ea & Eab & Eb).
  rewrite Ea in Ha. rewrite Eb in Hb'. injection Ha as <-. injection Hb' as <-.
  unfold batch_update in Eab.
  destruct (G a' x y) as [g|e] eqn:Eg; [|discriminate].
  cbn [rbind] in Eab. injection Eab as <-.
  now apply step_does_not_increase.
Qed.

Lemma batch_cost_never_increases_witness :
  let x := [0; 0.5; 1]%R in
  let y := [1; 1.5; 2]%R in
  let st := after_alloc (fresh (A:=R)) (0, 0)%R in
  length x = length y /\
  0 < next st /\
  (0 <= 0.01)%R /\
  (0.01 * (INR (length x) + rsum (map (fun xi => xi * xi) x)) <= 2)%R /\
  exists w_batch st',
    batch_gradient_descent 5 0.01%R x y 0 st = Ok (w_batch, st') /\
    forall k a b,
      nth_error w_batch k = Some a ->
      nth_error w_batch (S k) = Some b ->
      exists la lb, L a x y = Ok la /\ L b x y = Ok lb /\ (lb <= la)%R.
Proof.
  intros x y st.
  assert (B : (0.01 * (INR (length x) + rsum (map (fun xi => xi * xi) x)) <= 2)%R).
  { cbn [x length map rsum fold_right INR]. lra. }
  split; [reflexivity|]. split; [apply Nat.lt_0_succ|]. split; [lra|].
  split; [exact B|].
  apply (batch_cost_never_increases 5 0.01%R x y 0 st).
  - reflexivity.
  - apply Nat.lt_0_succ.
  - lra.
  - exact B.
Defined.

(** X6.  Over the reals, started at a zero of the gradient the batch
    cell never moves: every entry of its trajectory is the initial [w]. *)
Theorem batch_stays_at_zero_gradient {Gen : Type} {RG : Rng R Gen}
    (epochs : nat) (eta : R) (x y : list R) (w : loc) (st : state R Gen) :
  length x = length y ->
  w < next st ->
  G (heap st w) x y = Ok (0, 0)%R ->
  exists st',
    batch_gradient_descent epochs eta x y w st
    = Ok (repeat (heap st w) (S epochs), st') /\
    heap st' w = heap st w.
Proof.
  intros E Hw HG.
  destruct (batch_run eta x y w (or_introl E) epochs st Hw)
    as (new & st' & Erun & Hf & Hl & Hh & _).
  assert (Fix : batch_update eta x y (heap st w) = Ok (heap st w)).
  { unfold batch_update. rewrite HG. cbn [rbind]. f_equal.
    unfold vsub, vscale. real_ops. destruct (heap st w); cbn [fst snd].
    f_equal; ring. }
  pose proof (follows_constant _ _ _ Fix Hf) as C. rewrite Hl in C.
  exists st'. split.
  - rewrite Erun, C. reflexivity.
  - rewrite Hh, C. apply last_repeat.
Qed.

Lemma batch_stays_at_zero_gradient_witness :
  let x := [0; 0.5; 1]%R in
  let y := [1; 1.5; 2]%R in
  let st := after_alloc (fresh (A:=R)) (1, 1)%R in
  length x = length y /\
  0 < next st /\
  G (heap st 0) x y = Ok (0, 0)%R /\
  exists st',
    batch_gradient_descent 4 0.01%R x y 0 st = Ok (repeat (heap st 0) 5, st') /\
    heap st' 0 = heap st 0.
Proof.
  intros x y st.
  assert (HG : G (heap st 0) x y = Ok (0, 0)%R).
  { rewrite G_real by reflexivity.
    change (heap st 0) with (1, 1)%R.
    cbn [x y sum2]. unfold res. cbn [fst snd]. f_equal. f_equal; lra. }
  split; [reflexivity|]. split; [apply Nat.lt_0_succ|]. split; [exact HG|].
  apply (batch_stays_at_zero_gradient 4 0.01%R x y 0 st).
  - reflexivity.
  - apply Nat.lt_0_succ.
  - exact HG.
Defined.

(** ** Momentum as an exponential average *)

Section ScanFacts.
Context {S I : Type}.
Variable f : S -> I -> S.

Lemma scan_nth_step (s d : S) (di : I) (items : list I) (k : nat) :
  k < length items ->
  nth (Datatypes.S k) (scan f s items) d
  = f (nth k (scan f s items) d) (nth k items di).
Proof.
  intros Hk.
  destruct (nth_error items k) as [i|] eqn:Ei;
    [|apply nth_error_None in Ei; lia].
  destruct (scan_step f s items k i Ei) as (u & E1 & E2).
  rewrite (nth_error_nth _ _ d E1), (nth_error_nth _ _ d E2).
  now rewrite (nth_error_nth _ _ di Ei).
Qed.

Lemma scan_invariant (P : S -> Prop) (s : S) (items : list I) :
  P s -> (forall a i, P a -> P (f a i)) -> Forall P (scan f s items).
Proof.
  intros Hs Hf. unfold scan. constructor; [exact Hs|].
  revert s Hs; induction items as [|i items IH]; intros s Hs; cbn [trace];
    constructor; auto.
Qed.
End ScanFacts.

Section SigmaFacts.
Local Open Scope R_scope.

Lemma sigma_ext_lt (n : nat) (f g : nat -> R) :
  (forall i, (i < n)%nat -> f i = g i) -> Spec.sigma n f = Spec.sigma n g.
Proof.
  induction n as [|n IH]; intros H; cbn [Spec.sigma]; [reflexivity|].
  rewrite IH by (intros i Hi; apply H; lia). rewrite (H n) by lia. reflexivity.
Qed.

Lemma sigma_scal (c : R) (n : nat) (f : nat -> R) :
  Spec.sigma n (fun i => c * f i) = c * Spec.sigma n f.
Proof.
  induction n as [|n IH]; cbn [Spec.sigma]; [lra|]. rewrite IH. ring.
Qed.

(** Appending one term to a geometrically weighted sum. *)
Lemma sigma_geometric_step (m : R) (k : nat) (f : nat -> R) :
  Spec.sigma (S k) (fun i => m ^ (S k - 1 - i) * f i)
  = m * Spec.sigma k (fun i => m ^ (k - 1 - i) * f i) + f k.
Proof.
  cbn [Spec.sigma].
  replace (S k - 1 - k)%nat with 0%nat by lia.
  rewrite <- sigma_scal.
  rewrite (sigma_ext_lt k _ (fun i => m * (m ^ (k - 1 - i) * f i))).
  - cbn [pow]. ring.
  - intros i Hi. replace (S k - 1 - i)%nat with (S (k - 1 - i)) by lia.
    cbn [pow]. ring.
Qed.

Lemma geometric_weights (m : R) (k : nat) :
  (1 - m) * Spec.sigma k (fun i => m ^ (k - 1 - i)) = 1 - m ^ k.
Proof.
  induction k as [|k IH]; [cbn [Spec.sigma pow]; lra|].
  pose proof (sigma_geometric_step m k (fun _ => 1)) as X.
  rewrite (sigma_ext_lt (S k) _ (fun i => m ^ (S k - 1 - i) * 1))
    by (intros; ring).
  rewrite X.
  rewrite (sigma_ext_lt k (fun i => m ^ (k - 1 - i) * 1) (fun i => m ^ (k - 1 - i)))
    by (intros; ring).
  cbn [pow]. nra.
Qed.

Lemma momentum_point_update (eta m : R) (x y : list R)
    (acc : vec R * vec R) (j : nat) :
  let d := vadd (vscale m (fst acc))
                (vscale (1 - m) (G1 (snd acc) (nth j x (lit 0)) (nth j y (lit 0)))) in
  point_update (momentum_rule eta m) x y acc j = (d, vsub (snd acc) (vscale eta d)).
Proof.
  unfold point_update, momentum_rule. real_ops.
  replace (1 / 1 - m) with (1 - m) by lra. reflexivity.
Qed.

Lemma momentum_accumulator (eta m : R) (x y : list R) (start_w : vec R)
    (js : list nat) (k : nat) :
  let sc := scan (point_update (momentum_rule eta m) x y)
                 ((lit 0.0, lit 0.0), start_w) js in
  let D := ((0, 0), (0, 0)) in
  let g := fun i => G1 (snd (nth i sc D)) (nth (nth i js 0%nat) x (lit 0))
                       (nth (nth i js 0%nat) y (lit 0)) in
  (k <= length js)%nat ->
  fst (nth k sc D) = exponential_average m k g.
Proof.
  intros sc D g. induction k as [|k IH]; intros Hk.
  - unfold exponential_average. cbn [sc scan nth fst Spec.sigma].
    real_ops. f_equal; lra.
  - unfold sc. rewrite (@scan_nth_step (vec R * vec R) nat _ _ D 0%nat) by lia.
    rewrite momentum_point_update. cbv zeta. cbn [fst].
    change (scan (point_update (momentum_rule eta m) x y)
                 (lit 0.0, lit 0.0, start_w) js) with sc.
    rewrite IH by lia. fold (g k).
    unfold exponential_average, vadd, vscale. cbn [fst snd].
    rewrite !sigma_geometric_step. real_ops. f_equal; ring.
Qed.
End SigmaFacts.

(** X7.  Over the reals, the momentum cell steps along an exponential
    average of all gradients seen so far: step [k+1] subtracts
    [eta * (1 - m) * Σ_{i<=k} m^(k-i) * g_i], where [g_i] is the gradient
    at the [i]-th recorded [w] and the [i]-th sampled point.  The weights
    add up to [1 - m^(k+1)]. *)
Theorem momentum_steps_along_exponential_average {Gen : Type} {RG : Rng R Gen}
    (RS : RngSpec RG)
    (epochs : nat) (eta m : R) (x y : list R) (w_init : vec R)
    (st : state R Gen) :
  length x = length y ->
  let js := concat (draws epochs (length x) (gen st)) in
  exists w_momen w_mepoch st',
    momentum_gradient_descent epochs eta m x y w_init st
    = Ok ((w_momen, w_mepoch), st') /\
    forall k, k < length js ->
      let g := fun i => G1 (nth i w_momen (0, 0)%R)
                           (nth (nth i js 0) x (lit 0))
                           (nth (nth i js 0) y (lit 0)) in
      nth (S k) w_momen (0, 0)%R
      = vsub (nth k w_momen (0, 0)%R)
             (vscale eta (exponential_average m (S k) g)) /\
      ((1 - m) * Spec.sigma (S k) (fun i => m ^ (S k - 1 - i)) = 1 - m ^ S k)%R.
Proof.
  intros E js.
  destruct (momentum_run x y E epochs eta m w_init st) as (st' & Erun & _).
  eexists _, _, st'. split; [exact Erun|].
  intros k Hk g. split; [|apply geometric_weights].
  fold js. unfold step_values.
  set (sc := scan (point_update (momentum_rule eta m) x y)
                  ((lit 0.0, lit 0.0), w_init) js).
  set (D := ((0, 0), (0, 0))%R : vec R * vec R).
  assert (N : forall i, nth i (map snd sc) (0, 0)%R = snd (nth i sc D)).
  { intros i. apply (map_nth snd sc D i). }
  pose proof (momentum_accumulator eta m x y w_init js (S k) Hk) as Acc.
  cbv zeta in Acc. fold sc D in Acc.
  rewrite !N. unfold sc at 1.
  rewrite (@scan_nth_step (vec R * vec R) nat _ _ D 0) by exact Hk. fold sc.
  unfold sc in Acc at 1.
  rewrite (@scan_nth_step (vec R * vec R) nat _ _ D 0) in Acc by exact Hk.
  fold sc in Acc.
  rewrite momentum_point_update. rewrite momentum_point_update in Acc.
  cbv zeta in *. cbn [fst snd] in *.
  rewrite Acc. f_equal. f_equal.
  unfold exponential_average. subst g. cbv beta.
  f_equal; f_equal; apply sigma_ext_lt; intros i _; now rewrite N.
Qed.

Lemma momentum_steps_along_exponential_average_witness :
  let x := scenario_x (A:=R) in
  let y := scenario_y (A:=R) in
  let js := concat (draws 2 (length x) (gen (fresh (A:=R)))) in
  length x = length y /\
  exists w_momen w_mepoch st',
    momentum_gradient_descent 2 0.01%R 0.9%R x y (0, 0)%R fresh
    = Ok ((w_momen, w_mepoch), st') /\
    forall k, k < length js ->
      let g := fun i => G1 (nth i w_momen (0, 0)%R)
                           (nth (nth i js 0) x (lit 0))
                           (nth (nth i js 0) y (lit 0)) in
      nth (S k) w_momen (0, 0)%R
      = vsub (nth k w_momen (0, 0)%R)
             (vscale 0.01%R (exponential_average 0.9%R (S k) g)) /\
      ((1 - 0.9) * Spec.sigma (S k) (fun i => 0.9 ^ (S k - 1 - i))
       = 1 - 0.9 ^ S k)%R.
Proof.
  intros x y js. split; [reflexivity|].
  apply (momentum_steps_along_exponential_average counter_rng_spec 2 0.01%R 0.9%R
           x y (0, 0)%R fresh).
  reflexivity.
Defined.

(** ** RMSprop: every step is bounded *)

Section RmspropFacts.
Local Open Scope R_scope.

(** One component of an RMSprop step: with a non-negative running
    average, the decrement is at most [eta / sqrt(1 - m)] in size. *)
Lemma rmsprop_component_bound (eta m g2 g : R) :
  0 <= m < 1 ->
  0 <= g2 ->
  let g2' := m * g2 + (1 - m) * (g * g) in
  0 <= g2' /\
  (1 - m) * ((eta * g) / (sqrt g2' + 1e-8)) ^ 2 <= eta ^ 2.
Proof.
  intros Hm Hg g2'.
  assert (P : 0 <= g2') by (unfold g2'; nra).
  split; [exact P|].
  pose proof (sqrt_pos g2') as Sp.
  pose proof (sqrt_sqrt g2' P) as Ss.
  set (s := sqrt g2') in *.
  assert (Dp : 0 < s + 1e-8) by lra.
  apply Rmult_le_reg_r with ((s + 1e-8) ^ 2); [nra|].
  replace ((1 - m) * (eta * g / (s + 1e-8)) ^ 2 * (s + 1e-8) ^ 2)
    with ((1 - m) * (eta * g) ^ 2) by (field; lra).
  assert (H1 : (1 - m) * (g * g) <= s * s) by (rewrite Ss; unfold g2'; nra).
  assert (H2 : s * s <= (s + 1e-8) ^ 2) by nra.
  assert (H3 : eta ^ 2 * ((1 - m) * (g * g)) <= eta ^ 2 * (s + 1e-8) ^ 2).
  { apply Rmult_le_compat_l; [apply pow2_ge_0 | lra]. }
  nra.
Qed.

Lemma rmsprop_point_update (eta m : R) (x y : list R)
    (acc : vec R * vec R) (j : nat) :
  let gradient := G1 (snd acc) (nth j x (lit 0)) (nth j y (lit 0)) in
  let g2 := (m * fst (fst acc) + (1 - m) * (fst gradient * fst gradient),
             m * snd (fst acc) + (1 - m) * (snd gradient * snd gradient)) in
  point_update (rmsprop_rule eta m) x y acc j =
  (g2, (fst (snd acc) - (eta * fst gradient) / (sqrt (fst g2) + 1e-8),
        snd (snd acc) - (eta * snd gradient) / (sqrt (snd g2) + 1e-8))).
Proof.
  unfold point_update, rmsprop_rule, rmsprop_average, rmsprop_denominator,
    vadd, vscale, vsquare, vdiv, vsub, vadd_scalar, np_sqrt.
  real_ops.
  replace (1 / 1 - m) with (1 - m) by lra.
  replace (1 / 100000000) with 1e-8 by lra.
  reflexivity.
Qed.
End RmspropFacts.

(** X8.  Over the reals, with the decay coefficient in [0, 1): no step
    of the RMSprop run moves a component of [w] by more than
    [eta / sqrt(1 - momentum)], however large the gradient is; between
    consecutive recorded entries [(1 - momentum) * (b - a)^2 <= eta^2]
    in each component. *)
Theorem rmsprop_steps_are_bounded {Gen : Type} {RG : Rng R Gen}
    (RS : RngSpec RG)
    (epochs : nat) (eta momentum : R) (x y : list R) (w_init : vec R)
    (st : state R Gen) :
  length x = length y ->
  (0 <= momentum < 1)%R ->
  exists w_momen w_mepoch st',
    rmsprop_gradient_descent epochs eta momentum x y w_init st
    = Ok ((w_momen, w_mepoch), st') /\
    forall k a b,
      nth_error w_momen k = Some a ->
      nth_error w_momen (S k) = Some b ->
      ((1 - momentum) * (fst b - fst a) ^ 2 <= eta ^ 2 /\
       (1 - momentum) * (snd b - snd a) ^ 2 <= eta ^ 2)%R.
Proof.
  intros E Hm.
  destruct (rmsprop_run x y E epochs eta momentum w_init st)
    as (le & st' & Erun & _ & _).
  eexists _, le, st'. split; [exact Erun|].
  set (js := concat (draws epochs (length x) (gen st))).
  set (f := point_update (rmsprop_rule eta momentum) x y).
  set (start := ((lit 0, lit 0), w_init) : vec R * vec R).
  unfold step_values. fold js f.
  change (lit 0, lit 0, w_init) with start.
  assert (Inv : Forall (fun acc : vec R * vec R =>
                          (0 <= fst (fst acc) /\ 0 <= snd (fst acc))%R)
                       (scan f start js)).
  { apply scan_invariant.
    - unfold start. real_ops. lra.
    - intros acc j [H0 H1]. unfold f. rewrite rmsprop_point_update.
      cbv zeta. cbn [fst snd].
      split; apply rmsprop_component_bound; assumption. }
  intros k a b Ha Hb.
  rewrite nth_error_map in Ha, Hb.
  assert (Hk : k < length js).
  { assert (S k < length (scan f start js)).
    { apply nth_error_Some. destruct (nth_error (scan f start js) (S k));
        [discriminate | discriminate Hb]. }
    rewrite scan_length in H. lia. }
  destruct (nth_error js k) as [j|] eqn:Ej;
    [|apply nth_error_None in Ej; lia].
  destruct (scan_step f start js k j Ej) as (u & E1 & E2).
  rewrite E1 in Ha. rewrite E2 in Hb. cbn [option_map] in Ha, Hb.
  assert (Ea : a = snd u) by congruence.
  assert (Eb : b = snd (f u j)) by congruence.
  subst a b. clear Ha Hb.
  rewrite Forall_forall in Inv.
  destruct (Inv u (nth_error_In _ _ E1)) as [U0 U1].
  unfold f. rewrite rmsprop_point_update. cbv zeta. cbn [fst snd].
  set (gr := G1 (snd u) (nth j x (lit 0)) (nth j y (lit 0))).
  destruct (rmsprop_component_bound eta momentum (fst (fst u)) (fst gr) Hm U0)
    as [_ B0].
  destruct (rmsprop_component_bound eta momentum (snd (fst u)) (snd gr) Hm U1)
    as [_ B1].
  cbv zeta in B0, B1.
  split.
  - eapply Rle_trans; [|exact B0]. apply Req_le. ring.
  - eapply Rle_trans; [|exact B1]. apply Req_le. ring.
Qed.

Lemma rmsprop_steps_are_bounded_witness :
  let x := scenario_x (A:=R) in
  let y := scenario_y (A:=R) in
  length x = length y /\
  (0 <= 0.9 < 1)%R /\
  exists w_momen w_mepoch st',
    rmsprop_gradient_descent 2 0.0001%R 0.9%R x y (0, 0)%R fresh
    = Ok ((w_momen, w_mepoch), st') /\
    forall k a b,
      nth_error w_momen k = Some a ->
      nth_error w_momen (S k) = Some b ->
      ((1 - 0.9) * (fst b - fst a) ^ 2 <= 0.0001 ^ 2 /\
       (1 - 0.9) * (snd b - snd a) ^ 2 <= 0.0001 ^ 2)%R.
Proof.
  intros x y. split; [reflexivity|]. split; [lra|].
  apply (rmsprop_steps_are_bounded counter_rng_spec 2 0.0001%R 0.9%R
           x y (0, 0)%R fresh).
  - reflexivity.
  - lra.
Defined.

(** ** Shapes the cells accept and reject *)

Section ShapeFacts.
Context {A Gen : Type} {NA : Num A} {RG : Rng A Gen}.

Lemma bind_raise {T U : Type} (m : M A Gen T) (k : T -> M A Gen U)
    (st : state A Gen) (e : exn) :
  m st = Raise e -> bind m k st = Raise e.
Proof. intros E; unfold bind; now rewrite E. Qed.

Lemma bind_cong_l {T U : Type} (m m' : M A Gen T) (k : T -> M A Gen U)
    (st : state A Gen) :
  m st = m' st -> bind m k st = bind m' k st.
Proof. intros E; unfold bind; now rewrite E. Qed.

Lemma for_cong_in {I S : Type} (items : list I) (b1 b2 : I -> S -> M A Gen S) :
  (forall i, In i items -> forall s st, b2 i s st = b1 i s st) ->
  forall s st, for_ items b2 s st = for_ items b1 s st.
Proof.
  induction items as [|i items IH]; intros Hb s st; cbn [for_]; [reflexivity|].
  unfold bind. rewrite (Hb i (or_introl eq_refl)).
  destruct (b1 i s st) as [[s' st']|e]; [|reflexivity].
  apply IH. intros i' Hi'. apply Hb. now right.
Qed.

Lemma residual_total (w : vec A) (x y : list A) :
  compatible x y -> exists r, residual w x y = Ok r.
Proof.
  intros C. unfold residual.
  destruct (broadcast_total sub (map (fun yi => (yi - fst w)%num) y)
              (map (fun xi => (snd w * xi)%num) x)) as [(r & Er & _)|Er];
    [eauto|].
  apply broadcast_raises in Er. rewrite !length_map in Er.
  unfold compatible in C. lia.
Qed.

Variable S : Type.
Variable rule : S -> vec A -> A -> A -> S * vec A.
Variables (x y : list A) (w : loc).

Lemma point_step_ok (j : nat) (acc : S * list loc) (st : state A Gen) :
  j < length x -> j < length y ->
  exists r st', point_step rule x y w j acc st = Ok (r, st').
Proof.
  intros Hx Hy. unfold point_step.
  rewrite (getitem_nth x j (lit 0) Hx), (getitem_nth y j (lit 0) Hy).
  eexists _, _. reflexivity.
Qed.

Lemma point_step_index_error (j : nat) (acc : S * list loc) (st : state A Gen) :
  j < length x -> length y <= j ->
  point_step rule x y w j acc st = Raise IndexError.
Proof.
  intros Hx Hy. unfold point_step.
  rewrite (getitem_nth x j (lit 0) Hx).
  unfold getitem at 1. rewrite (proj2 (nth_error_None y j) Hy). reflexivity.
Qed.

Lemma points_index_error (js : list nat) :
  Forall (fun j => j < length x) js ->
  Exists (fun j => length y <= j) js ->
  forall acc (st : state A Gen),
    for_ js (point_step rule x y w) acc st = Raise IndexError.
Proof.
  induction js as [|j js IH]; intros F X acc st; [inversion X|].
  inversion F as [|? ? Hj F']; subst. cbn [for_].
  destruct (le_lt_dec (length y) j) as [Hy|Hy].
  - apply bind_raise. now apply point_step_index_error.
  - destruct (point_step_ok j acc st Hj Hy) as (r & st' & E).
    rewrite (bind_ok _ _ _ _ _ E). apply IH; [exact F'|].
    inversion X as [? ? Hbad|? ? X']; subst; [lia | exact X'].
Qed.

Context {RS : RngSpec RG}.

Lemma epochs_index_error (n a : nat) (acc : S * list loc * list loc)
    (st : state A Gen) :
  length y < length x ->
  for_ (seq a (Datatypes.S n)) (epoch_step rule x y w) acc st = Raise IndexError.
Proof.
  intros H. cbn [seq for_]. apply bind_raise.
  unfold epoch_step, random_choice. unfold bind at 1.
  pose proof (choice_perm (gen st) (length x)) as P.
  destruct (choice (gen st) (length x)) as [p g]. cbn [fst] in P.
  apply bind_raise. apply points_index_error.
  - apply Forall_forall. intros j Hj.
    apply (Permutation_in _ P) in Hj. apply in_seq in Hj. lia.
  - apply Exists_exists. exists (length y). split; [|lia].
    apply (Permutation_in _ (Permutation_sym P)). apply in_seq. lia.
Qed.

(** Labels beyond the last independent value are never read. *)
Lemma epochs_ignore_extra_labels (items : list nat)
    (acc : S * list loc * list loc) (st : state A Gen) :
  for_ items (epoch_step rule x y w) acc st =
  for_ items (epoch_step rule x (firstn (length x) y) w) acc st.
Proof.
  apply for_cong_in. intros i _ s st0.
  unfold epoch_step, random_choice. unfold bind at 1 4.
  pose proof (choice_perm (gen st0) (length x)) as P.
  destruct (choice (gen st0) (length x)) as [p g]. cbn [fst] in P.
  apply bind_cong_l. apply for_cong_in.
  intros j Hj s1 st1. unfold point_step.
  apply (Permutation_in _ P) in Hj. apply in_seq in Hj.
  assert (Ey : getitem (firstn (length x) y) j = getitem y j).
  { unfold getitem. rewrite nth_error_firstn.
    destruct (Nat.ltb_spec j (length x)); [reflexivity | lia]. }
  rewrite Ey. reflexivity.
Qed.
End ShapeFacts.

Section CellShapeFacts.
Context {A Gen : Type} {NA : Num A} {RG : Rng A Gen} {RS : RngSpec RG}.
Variables (epochs : nat) (eta momentum : A) (x y : list A) (w_init : vec A).
Variable st : state A Gen.

Lemma stochastic_ignores_extra_labels :
  stochastic_gradient_descent epochs eta x y w_init st =
  stochastic_gradient_descent epochs eta x (firstn (length x) y) w_init st.
Proof.
  unfold stochastic_gradient_descent.
  assert (E0 : np_array w_init st = Ok (next st, after_alloc st w_init))
    by reflexivity.
  rewrite !(bind_ok _ _ _ _ _ E0).
  rewrite !(bind_ok _ _ _ _ _ (copy_run _ _)).
  apply bind_cong_l. rewrite !stochastic_loops. f_equal.
  apply epochs_ignore_extra_labels. exact RS.
Qed.

Lemma momentum_ignores_extra_labels :
  momentum_gradient_descent epochs eta momentum x y w_init st =
  momentum_gradient_descent epochs eta momentum x (firstn (length x) y) w_init st.
Proof.
  unfold momentum_gradient_descent.
  assert (E0 : np_array w_init st = Ok (next st, after_alloc st w_init))
    by reflexivity.
  rewrite !(bind_ok _ _ _ _ _ E0).
  rewrite !(bind_ok _ _ _ _ _ (copy_run _ _)).
  cbv zeta. apply bind_cong_l.
  refine (eq_trans (momentum_loops eta momentum x y _ epochs _ _ _ _)
            (eq_trans _ (eq_sym (momentum_loops eta momentum x
                                   (firstn (length x) y) _ epochs _ _ _ _)))).
  f_equal. apply epochs_ignore_extra_labels. exact RS.
Qed.

Lemma rmsprop_ignores_extra_labels :
  rmsprop_gradient_descent epochs eta momentum x y w_init st =
  rmsprop_gradient_descent epochs eta momentum x (firstn (length x) y) w_init st.
Proof.
  unfold rmsprop_gradient_descent.
  assert (E0 : np_array w_init st = Ok (next st, after_alloc st w_init))
    by reflexivity.
  rewrite !(bind_ok _ _ _ _ _ E0).
  rewrite !(bind_ok _ _ _ _ _ (copy_run _ _)).
  cbv zeta. apply bind_cong_l.
  refine (eq_trans (rmsprop_loops eta momentum x y _ epochs _ _ _ _)
            (eq_trans _ (eq_sym (rmsprop_loops eta momentum x
                                   (firstn (length x) y) _ epochs _ _ _ _)))).
  f_equal. apply epochs_ignore_extra_labels. exact RS.
Qed.
End CellShapeFacts.

(** X9.  For any arithmetic, the cost function raises [ValueError]
    exactly when the two lengths differ and neither is one, and returns a
    value otherwise; on two empty sequences it returns [1/2 * 0]. *)
Theorem L_failure_modes {A : Type} {NA : Num A} (w : vec A) (xs ys : list A) :
  ((compatible xs ys /\ exists l, L w xs ys = Ok l) \/
   (length xs <> length ys /\ length xs <> 1 /\ length ys <> 1 /\
    L w xs ys = Raise ValueError)) /\
  L w [] [] = Ok ((lit 1 / lit 2) * lit 0)%num.
Proof.
  split; [|reflexivity].
  destruct (Nat.eq_dec (length xs) (length ys)) as [H|H].
  { left. split; [now left|]. unfold L.
    destruct (residual_total w xs ys (or_introl H)) as [r ->]. cbn [rbind]. eauto. }
  destruct (Nat.eq_dec (length xs) 1) as [H1|H1].
  { left. split; [right; now left|]. unfold L.
    destruct (residual_total w xs ys (or_intror (or_introl H1))) as [r ->].
    cbn [rbind]. eauto. }
  destruct (Nat.eq_dec (length ys) 1) as [H2|H2].
  { left. split; [right; now right|]. unfold L.
    destruct (residual_total w xs ys (or_intror (or_intror H2))) as [r ->].
    cbn [rbind]. eauto. }
  right. repeat split; try assumption.
  unfold L. rewrite (proj2 (residual_raises w xs ys)); [reflexivity|].
  unfold compatible. tauto.
Qed.

(** X10.  For any arithmetic, a dataset whose two lengths differ, neither
    being one, makes the batch cell raise [ValueError] in its first
    iteration; with no iteration at all the shapes are never looked at
    and the cell returns the one-entry trajectory. *)
Theorem batch_rejects_mismatched_shapes {A Gen : Type} {NA : Num A}
    {RG : Rng A Gen} (n : nat) (eta : A) (x y : list A) (w : loc)
    (st : state A Gen) :
  ~ compatible x y ->
  batch_gradient_descent (S n) eta x y w st = Raise ValueError /\
  batch_gradient_descent 0 eta x y w st = Ok ([heap st w], after_copy st w).
Proof.
  intros C. unfold batch_gradient_descent.
  rewrite !(bind_ok _ _ _ _ _ (copy_run st w)). split.
  - apply bind_raise. cbn [seq for_]. apply bind_raise.
    unfold bind, load, lift.
    rewrite (proj2 (G_raises _ x y) C). reflexivity.
  - cbn [seq for_]. unfold bind, ret, np_stack.
    cbn [map heap after_copy]. rewrite store_same. reflexivity.
Qed.

Lemma batch_rejects_mismatched_shapes_witness :
  let x := [lit 1; lit 2] : list PrimFloat.float in
  let y := [lit 1; lit 2; lit 3] : list PrimFloat.float in
  ~ compatible x y /\
  batch_gradient_descent 3 (lit 0.01) x y 0 (after_alloc fresh (lit 0, lit 0))
  = Raise ValueError /\
  batch_gradient_descent 0 (lit 0.01) x y 0 (after_alloc fresh (lit 0, lit 0))
  = Ok ([heap (after_alloc fresh (lit 0, lit 0)) 0],
        after_copy (after_alloc fresh (lit 0, lit 0)) 0).
Proof.
  intros x y.
  assert (C : ~ compatible x y).
  { unfold compatible. cbn [x y length]. lia. }
  split; [exact C|].
  apply (batch_rejects_mismatched_shapes 2 (lit 0.01) x y 0
           (after_alloc fresh (lit 0, lit 0)) C).
Defined.

(** X11.  For any arithmetic and a lawful generator: when there are
    fewer dependent than independent values, each per-point cell with at
    least one epoch raises [IndexError], in its first epoch, when the
    shuffled order reaches an index that has no label. *)
Theorem missing_labels_raise_index_error {A Gen : Type} {NA : Num A}
    {RG : Rng A Gen} (RS : RngSpec RG)
    (n : nat) (eta momentum : A) (x y : list A) (w_init : vec A)
    (st : state A Gen) :
  length y < length x ->
  stochastic_gradient_descent (S n) eta x y w_init st = Raise IndexError /\
  momentum_gradient_descent (S n) eta momentum x y w_init st = Raise IndexError /\
  rmsprop_gradient_descent (S n) eta momentum x y w_init st = Raise IndexError.
Proof.
  intros H.
  assert (E0 : np_array w_init st = Ok (next st, after_alloc st w_init))
    by reflexivity.
  split; [|split].
  - unfold stochastic_gradient_descent.
    rewrite (bind_ok _ _ _ _ _ E0).
    rewrite !(bind_ok _ _ _ _ _ (copy_run _ _)).
    apply bind_raise. rewrite stochastic_loops.
    rewrite (epochs_index_error _ _ x y _ n 0 _ _ H). reflexivity.
  - unfold momentum_gradient_descent.
    rewrite (bind_ok _ _ _ _ _ E0).
    rewrite !(bind_ok _ _ _ _ _ (copy_run _ _)).
    cbv zeta. apply bind_raise.
    refine (eq_trans (momentum_loops eta momentum x y _ (S n) _ _ _ _) _).
    rewrite (epochs_index_error _ _ x y _ n 0 _ _ H). reflexivity.
  - unfold rmsprop_gradient_descent.
    rewrite (bind_ok _ _ _ _ _ E0).
    rewrite !(bind_ok _ _ _ _ _ (copy_run _ _)).
    cbv zeta. apply bind_raise.
    refine (eq_trans (rmsprop_loops eta momentum x y _ (S n) _ _ _ _) _).
    rewrite (epochs_index_error _ _ x y _ n 0 _ _ H). reflexivity.
Qed.

Lemma missing_labels_raise_index_error_witness :
  let x := [lit 0; lit 0.5; lit 1] : list PrimFloat.float in
  let y := [lit 1; lit 1.5] : list PrimFloat.float in
  length y < length x /\
  stochastic_gradient_descent 2 (lit 0.01) x y (lit 0, lit 0) fresh
  = Raise IndexError /\
  momentum_gradient_descent 2 (lit 0.01) (lit 0.9) x y (lit 0, lit 0) fresh
  = Raise IndexError /\
  rmsprop_gradient_descent 2 (lit 0.01) (lit 0.9) x y (lit 0, lit 0) fresh
  = Raise IndexError.
Proof.
  intros x y.
  assert (H : length y < length x) by (cbn [x y length]; lia).
  split; [exact H|].
  apply (missing_labels_raise_index_error counter_rng_spec 1 (lit 0.01) (lit 0.9)
           x y (lit 0, lit 0) fresh H).
Defined.

(** X12.  For any arithmetic and a lawful generator: the per-point cells
    index the labels by positions of the independent values only, so
    dependent values beyond the last independent one are never read and
    a longer label sequence is accepted without any error, unlike in the
    batch cell.  Each cell behaves as on the labels cut to that length. *)
Theorem extra_labels_are_ignored {A Gen : Type} {NA : Num A}
    {RG : Rng A Gen} (RS : RngSpec RG)
    (epochs : nat) (eta momentum : A) (x y : list A) (w_init : vec A)
    (st : state A Gen) :
  stochastic_gradient_descent epochs eta x y w_init st =
  stochastic_gradient_descent epochs eta x (firstn (length x) y) w_init st /\
  momentum_gradient_descent epochs eta momentum x y w_init st =
  momentum_gradient_descent epochs eta momentum x (firstn (length x) y) w_init st /\
  rmsprop_gradient_descent epochs eta momentum x y w_init st =
  rmsprop_gradient_descent epochs eta momentum x (firstn (length x) y) w_init st.
Proof.
  split; [|split].
  - apply stochastic_ignores_extra_labels.
  - apply momentum_ignores_extra_labels.
  - apply rmsprop_ignores_extra_labels.
Qed.

Lemma extra_labels_are_ignored_witness :
  let x := [lit 0; lit 0.5] : list PrimFloat.float in
  let y := [lit 1; lit 1.5; lit 2] : list PrimFloat.float in
  let w_init := (lit 0, lit 0) : vec PrimFloat.float in
  stochastic_gradient_descent 2 (lit 0.01) x y w_init fresh =
  stochastic_gradient_descent 2 (lit 0.01) x (firstn (length x) y) w_init fresh /\
  momentum_gradient_descent 2 (lit 0.01) (lit 0.9) x y w_init fresh =
  momentum_gradient_descent 2 (lit 0.01) (lit 0.9) x (firstn (length x) y) w_init
    fresh /\
  rmsprop_gradient_descent 2 (lit 0.01) (lit 0.9) x y w_init fresh =
  rmsprop_gradient_descent 2 (lit 0.01) (lit 0.9) x (firstn (length x) y) w_init
    fresh.
Proof.
  intros x y w_init.
  exact (extra_labels_are_ignored counter_rng_spec 2 (lit 0.01) (lit 0.9) x y
           w_init fresh).
Defined.

(** ** An empty dataset *)

Section EmptyFacts.
Context {A Gen : Type} {NA : Num A} {RG : Rng A Gen} {RS : RngSpec RG}.

Lemma draws_empty (n : nat) (g : Gen) : Forall (fun p => p = []) (draws n 0 g).
Proof.
  eapply Forall_impl; [|apply (draws_perm n 0 g)].
  intros p Hp. cbn [seq] in Hp. apply Permutation_sym in Hp.
  now apply Permutation_nil in Hp.
Qed.

Context {S : Type}.
Variable rule : S -> vec A -> A -> A -> S * vec A.
Variables (x y : list A) (start : S * vec A).

Lemma step_values_empty (perms : list (list nat)) :
  Forall (fun p => p = []) perms ->
  step_values rule x y start perms = [snd start].
Proof.
  intros F. unfold step_values.
  assert (C : concat perms = []).
  { induction F as [|p perms -> _ IH]; [reflexivity | exact IH]. }
  rewrite C. reflexivity.
Qed.

Lemma epoch_values_empty (perms : list (list nat)) :
  Forall (fun p => p = []) perms ->
  epoch_values rule x y start perms = repeat (snd start) (Datatypes.S (length perms)).
Proof.
  intros F. unfold epoch_values, scan. cbn [map repeat]. f_equal.
  induction F as [|p perms -> _ IH]; [reflexivity|].
  cbn [trace map length repeat epoch_update fold_left]. f_equal. exact IH.
Qed.
End EmptyFacts.

(** X13.  For any arithmetic and a lawful generator: with no independent
    values the per-point cells never evaluate the gradient, whatever the
    labels are.  The per-step trajectory is the initial [w] alone and the
    epoch trajectory is [epochs + 1] copies of it. *)
Theorem empty_dataset_never_steps {A Gen : Type} {NA : Num A}
    {RG : Rng A Gen} (RS : RngSpec RG)
    (epochs : nat) (eta momentum : A) (y : list A) (w_init : vec A)
    (st : state A Gen) :
  (exists st',
      stochastic_gradient_descent epochs eta [] y w_init st
      = Ok (([w_init], repeat w_init (S epochs)), st')) /\
  (exists st',
      momentum_gradient_descent epochs eta momentum [] y w_init st
      = Ok (([w_init], repeat w_init (S epochs)), st')) /\
  (exists w_mepoch st',
      rmsprop_gradient_descent epochs eta momentum [] y w_init st
      = Ok (([w_init], w_mepoch), st') /\
      map (heap st') w_mepoch = repeat w_init (S epochs)).
Proof.
  pose proof (draws_empty epochs (gen st)) as F.
  pose proof (draws_length epochs 0 (gen st)) as Ln.
  split; [|split].
  - rewrite stochastic_ignores_extra_labels. cbn [length firstn].
    destruct (stochastic_run [] [] eq_refl epochs eta w_init st) as (st' & E & _).
    cbn [length] in E.
    rewrite step_values_empty, epoch_values_empty, Ln in E by exact F.
    exists st'. exact E.
  - rewrite momentum_ignores_extra_labels. cbn [length firstn].
    destruct (momentum_run [] [] eq_refl epochs eta momentum w_init st)
      as (st' & E & _).
    cbv zeta in E. cbn [length] in E.
    rewrite step_values_empty, epoch_values_empty, Ln in E by exact F.
    exists st'. exact E.
  - rewrite rmsprop_ignores_extra_labels. cbn [length firstn].
    destruct (rmsprop_run [] [] eq_refl epochs eta momentum w_init st)
      as (le & st' & E & [_ Hv] & _).
    cbv zeta in E, Hv. cbn [length] in E, Hv.
    rewrite step_values_empty in E by exact F.
    rewrite epoch_values_empty, Ln in Hv by exact F.
    exists le, st'. split; [exact E | exact Hv].
Qed.

Lemma empty_dataset_never_steps_witness :
  let y := [lit 1; lit 2] : list PrimFloat.float in
  let w_init := (lit 3, lit 4) : vec PrimFloat.float in
  exists st',
    stochastic_gradient_descent 2 (lit 0.01) [] y w_init fresh
    = Ok (([w_init], repeat w_init 3), st').
Proof.
  intros y w_init.
  exact (proj1 (empty_dataset_never_steps counter_rng_spec 2 (lit 0.01) (lit 0.9)
                  y w_init fresh)).
Defined.

(** ** Earlier arrays are left alone *)

Section FrameFacts.
Context {A Gen : Type} {NA : Num A} {RG : Rng A Gen}.
Variable w : loc.

Lemma preserves_refl (st : state A Gen) : preserves w st st.
Proof. split; [lia | reflexivity]. Qed.

Lemma preserves_trans (st1 st2 st3 : state A Gen) :
  preserves w st1 st2 -> preserves w st2 st3 -> preserves w st1 st3.
Proof.
  intros [N1 H1] [N2 H2]. split; [lia|].
  intros l Hl Hw. rewrite H2 by (try lia; assumption). now apply H1.
Qed.

Lemma preserves_after_copy (st : state A Gen) (l : loc) :
  preserves w st (after_copy st l).
Proof.
  split; [simpl; lia|]. intros l' Hl' _. simpl. apply store_other. lia.
Qed.

Lemma preserves_after_update (st : state A Gen) (v : vec A) :
  preserves w st (after_update st w v).
Proof.
  split; [simpl; lia|]. intros l' Hl' Hw. simpl.
  rewrite !store_other by (try lia; assumption). reflexivity.
Qed.

Lemma for_preserves {I S : Type} (items : list I) (body : I -> S -> M A Gen S) :
  (forall i s st s' st', body i s st = Ok (s', st') -> preserves w st st') ->
  forall s st s' st',
    for_ items body s st = Ok (s', st') -> preserves w st st'.
Proof.
  intros Hb. induction items as [|i items IH]; intros s st s' st' E; cbn [for_] in E.
  - unfold ret in E. injection E as _ <-. apply preserves_refl.
  - unfold bind in E. destruct (body i s st) as [[s1 st1]|e] eqn:E1; [|discriminate].
    eapply preserves_trans; [eapply Hb; exact E1 | eapply IH; exact E].
Qed.

Context {S : Type}.
Variable rule : S -> vec A -> A -> A -> S * vec A.
Variables x y : list A.

Lemma point_step_preserves (j : nat) (acc : S * list loc) (st : state A Gen)
    (r : S * list loc) (st' : state A Gen) :
  point_step rule x y w j acc st = Ok (r, st') -> preserves w st st'.
Proof.
  unfold point_step, bind, lift.
  destruct (getitem x j) as [xj|e]; [|discriminate].
  destruct (getitem y j) as [yj|e]; [|discriminate].
  unfold load, isub, copy, bind, load, np_array, ret. cbn [heap next gen].
  intros E. injection E as _ <-.
  rewrite store_same.
  apply (preserves_after_update st).
Qed.

Lemma epoch_step_preserves (i : nat) (acc : S * list loc * list loc)
    (st : state A Gen) (r : S * list loc * list loc) (st' : state A Gen) :
  epoch_step rule x y w i acc st = Ok (r, st') -> preserves w st st'.
Proof.
  unfold epoch_step, random_choice. unfold bind at 1.
  destruct (choice (gen st) (length x)) as [p g].
  set (st0 := mkState (heap st) (next st) g).
  unfold bind at 1.
  destruct (for_ p (point_step rule x y w) (fst acc) st0) as [[r1 st1]|e] eqn:E1;
    [|discriminate].
  rewrite (bind_ok _ _ _ _ _ (copy_run st1 w)). unfold ret.
  intros E. injection E as _ <-.
  apply preserves_trans with st0; [split; [simpl; lia | reflexivity]|].
  apply preserves_trans with st1; [|apply preserves_after_copy].
  eapply for_preserves; [|exact E1].
  intros j s s0 s' s0'. apply point_step_preserves.
Qed.

Lemma epochs_preserve (items : list nat) (acc : S * list loc * list loc)
    (st : state A Gen) (r : S * list loc * list loc) (st' : state A Gen) :
  for_ items (epoch_step rule x y w) acc st = Ok (r, st') -> preserves w st st'.
Proof.
  apply for_preserves. intros i s s0 s' s0'. apply epoch_step_preserves.
Qed.
End FrameFacts.

Section CellFrameFacts.
Context {A Gen : Type} {NA : Num A} {RG : Rng A Gen}.

Lemma bind_inv {T U : Type} (m : M A Gen T) (k : T -> M A Gen U)
    (st st' : state A Gen) (u : U) :
  bind m k st = Ok (u, st') ->
  exists t st1, m st = Ok (t, st1) /\ k t st1 = Ok (u, st').
Proof.
  unfold bind. destruct (m st) as [[t st1]|e]; [|discriminate].
  intros E. exists t, st1. split; [reflexivity | exact E].
Qed.

Lemma rmap_inv {S1 S2 : Type} (f : S1 -> S2) (r : result (S1 * state A Gen))
    (s2 : S2) (st' : state A Gen) :
  rmap f r = Ok (s2, st') -> exists s1, r = Ok (s1, st').
Proof.
  destruct r as [[s1 st1]|e]; [|discriminate].
  cbn [rmap]. intros E. injection E as _ <-. eauto.
Qed.

(** The three set-up steps of a per-point cell leave [st] at a state that
    preserves it, with [w] the first new address. *)
Lemma setup_preserves (st : state A Gen) (w_init : vec A) :
  preserves (next st) st
    (after_copy (after_copy (after_alloc st w_init) (next st)) (next st)).
Proof.
  apply preserves_trans with (after_alloc st w_init).
  - split; [simpl; lia|]. intros l Hl _. simpl. apply store_other. lia.
  - apply preserves_trans with (after_copy (after_alloc st w_init) (next st));
      apply preserves_after_copy.
Qed.

Variables (epochs : nat) (eta momentum : A) (x y : list A) (w_init : vec A).
Variable st : state A Gen.

Lemma stochastic_preserves (r : list (vec A) * list (vec A)) (st' : state A Gen) :
  stochastic_gradient_descent epochs eta x y w_init st = Ok (r, st') ->
  preserves (next st) st st'.
Proof.
  unfold stochastic_gradient_descent.
  assert (E0 : np_array w_init st = Ok (next st, after_alloc st w_init))
    by reflexivity.
  rewrite (bind_ok _ _ _ _ _ E0).
  rewrite !(bind_ok _ _ _ _ _ (copy_run _ _)).
  intros E. apply bind_inv in E. destruct E as ([ws we] & st3 & EL & E).
  rewrite stochastic_loops in EL. apply rmap_inv in EL. destruct EL as [s1 EL].
  apply epochs_preserve in EL.
  unfold bind, np_stack, ret in E. injection E as _ <-.
  eapply preserves_trans; [apply setup_preserves | exact EL].
Qed.

Lemma momentum_preserves (r : list (vec A) * list (vec A)) (st' : state A Gen) :
  momentum_gradient_descent epochs eta momentum x y w_init st = Ok (r, st') ->
  preserves (next st) st st'.
Proof.
  unfold momentum_gradient_descent.
  assert (E0 : np_array w_init st = Ok (next st, after_alloc st w_init))
    by reflexivity.
  rewrite (bind_ok _ _ _ _ _ E0).
  rewrite !(bind_ok _ _ _ _ _ (copy_run _ _)).
  cbv zeta. intros E. apply bind_inv in E. destruct E as ([[d ws] we] & st3 & EL & E).
  pose proof (momentum_loops eta momentum x y (next st) epochs (lit 0.0, lit 0.0)
                [next (after_alloc st w_init)]
                [next (after_copy (after_alloc st w_init) (next st))]
                (after_copy (after_copy (after_alloc st w_init) (next st)) (next st)))
    as X.
  pose proof (eq_trans (eq_sym X) EL) as EL'. clear X EL.
  apply rmap_inv in EL'. destruct EL' as [s1 EL].
  apply epochs_preserve in EL.
  unfold bind, np_stack, ret in E. injection E as _ <-.
  eapply preserves_trans; [apply setup_preserves | exact EL].
Qed.

Lemma rmsprop_preserves (r : list (vec A) * list loc) (st' : state A Gen) :
  rmsprop_gradient_descent epochs eta momentum x y w_init st = Ok (r, st') ->
  preserves (next st) st st'.
Proof.
  unfold rmsprop_gradient_descent.
  assert (E0 : np_array w_init st = Ok (next st, after_alloc st w_init))
    by reflexivity.
  rewrite (bind_ok _ _ _ _ _ E0).
  rewrite !(bind_ok _ _ _ _ _ (copy_run _ _)).
  cbv zeta. intros E. apply bind_inv in E. destruct E as ([[d ws] we] & st3 & EL & E).
  pose proof (rmsprop_loops eta momentum x y (next st) epochs (lit 0, lit 0)
                [next (after_alloc st w_init)]
                [next (after_copy (after_alloc st w_init) (next st))]
                (after_copy (after_copy (after_alloc st w_init) (next st)) (next st)))
    as X.
  pose proof (eq_trans (eq_sym X) EL) as EL'. clear X EL.
  apply rmap_inv in EL'. destruct EL' as [s1 EL].
  apply epochs_preserve in EL.
  unfold bind, np_stack, ret in E. injection E as _ <-.
  eapply preserves_trans; [apply setup_preserves | exact EL].
Qed.

Lemma batch_preserves (w : loc) (r : list (vec A)) (st' : state A Gen) :
  batch_gradient_descent epochs eta x y w st = Ok (r, st') ->
  preserves w st st'.
Proof.
  unfold batch_gradient_descent.
  rewrite (bind_ok _ _ _ _ _ (copy_run st w)).
  intros E. apply bind_inv in E. destruct E as (ls & st2 & EL & E).
  unfold np_stack in E. injection E as _ <-.
  apply preserves_trans with (after_copy st w); [apply preserves_after_copy|].
  eapply for_preserves; [|exact EL].
  clear. intros i s s0 s' s0'. unfold bind at 1, load.
  unfold bind at 1, lift.
  destruct (G (heap s0 w) x y) as [g|e]; [|discriminate].
  unfold isub, bind, copy, bind, load, np_array, ret. cbn [heap next gen].
  intros E. injection E as _ <-. rewrite store_same.
  apply (preserves_after_update w s0).
Qed.
End CellFrameFacts.

(** X14.  For any arithmetic and a lawful generator, on a dataset of
    equal-length sequences: each per-point cell works on an array of its
    own, so it returns with every array object that existed before it
    unchanged, the [w] of an earlier cell included, and never reuses an
    address. *)
Theorem per_point_cells_leave_earlier_arrays {A Gen : Type} {NA : Num A}
    {RG : Rng A Gen} (RS : RngSpec RG)
    (epochs : nat) (eta momentum : A) (x y : list A) (w_init : vec A)
    (st : state A Gen) :
  length x = length y ->
  (exists r st',
      stochastic_gradient_descent epochs eta x y w_init st = Ok (r, st') /\
      next st <= next st' /\
      forall l, l < next st -> heap st' l = heap st l) /\
  (exists r st',
      momentum_gradient_descent epochs eta momentum x y w_init st = Ok (r, st') /\
      next st <= next st' /\
      forall l, l < next st -> heap st' l = heap st l) /\
  (exists r st',
      rmsprop_gradient_descent epochs eta momentum x y w_init st = Ok (r, st') /\
      next st <= next st' /\
      forall l, l < next st -> heap st' l = heap st l).
Proof.
  intros E.
  assert (Fr : forall st' : state A Gen, preserves (next st) st st' ->
             next st <= next st' /\
             forall l, l < next st -> heap st' l = heap st l).
  { intros st' [N H]. split; [exact N|]. intros l Hl. apply H; lia. }
  split; [|split].
  - destruct (stochastic_run x y E epochs eta w_init st) as (st' & Erun & _).
    eexists _, st'. split; [exact Erun|].
    apply Fr. eapply stochastic_preserves. exact Erun.
  - destruct (momentum_run x y E epochs eta momentum w_init st) as (st' & Erun & _).
    eexists _, st'. split; [exact Erun|].
    apply Fr. eapply momentum_preserves. exact Erun.
  - destruct (rmsprop_run x y E epochs eta momentum w_init st)
      as (le & st' & Erun & _).
    eexists _, st'. split; [exact Erun|].
    apply Fr. eapply rmsprop_preserves. exact Erun.
Qed.

Lemma per_point_cells_leave_earlier_arrays_witness :
  let x := scenario_x (A:=PrimFloat.float) in
  let y := scenario_y (A:=PrimFloat.float) in
  let st := after_alloc fresh (lit 7, lit 8) in
  length x = length y /\
  exists r st',
    stochastic_gradient_descent 2 (lit 0.01) x y (lit 0, lit 0) st = Ok (r, st') /\
    next st <= next st' /\
    forall l, l < next st -> heap st' l = heap st l.
Proof.
  intros x y st. split; [reflexivity|].
  exact (proj1 (per_point_cells_leave_earlier_arrays counter_rng_spec 2 (lit 0.01)
                  (lit 0.9) x y (lit 0, lit 0) st eq_refl)).
Defined.

(** X15.  For any arithmetic, on a dataset of equal-length sequences:
    the batch cell updates the array [w] it is given in place and changes
    no other array object that existed before it. *)
Theorem batch_changes_only_w {A Gen : Type} {NA : Num A} {RG : Rng A Gen}
    (epochs : nat) (eta : A) (x y : list A) (w : loc) (st : state A Gen) :
  length x = length y ->
  w < next st ->
  exists w_batch st',
    batch_gradient_descent epochs eta x y w st = Ok (w_batch, st') /\
    next st <= next st' /\
    (forall l, l < next st -> l <> w -> heap st' l = heap st l) /\
    heap st' w = last w_batch (heap st w).
Proof.
  intros E Hw.
  destruct (batch_run eta x y w (or_introl E) epochs st Hw)
    as (new & st' & Erun & _ & _ & Hh & _).
  eexists _, st'. split; [exact Erun|].
  destruct (batch_preserves epochs eta x y st w _ _ Erun) as [N H].
  split; [exact N|]. split; [exact H|].
  rewrite Hh. symmetry. apply last_cons.
Qed.

Lemma batch_changes_only_w_witness :
  let x := scenario_x (A:=PrimFloat.float) in
  let y := scenario_y (A:=PrimFloat.float) in
  let st := after_alloc (after_alloc fresh (lit 7, lit 8)) (lit 0, lit 0) in
  length x = length y /\
  1 < next st /\
  exists w_batch st',
    batch_gradient_descent 2 (lit 0.01) x y 1 st = Ok (w_batch, st') /\
    next st <= next st' /\
    (forall l, l < next st -> l <> 1 -> heap st' l = heap st l) /\
    heap st' 1 = last w_batch (heap st 1).
Proof.
  intros x y st. split; [reflexivity|]. split; [apply Nat.lt_succ_diag_r|].
  exact (batch_changes_only_w 2 (lit 0.01) x y 1 st eq_refl
           (Nat.lt_succ_diag_r 1)).
Defined.

(** ** The loss surface *)

Section GridFacts.
Context {A : Type} {NA : Num A}.

Lemma set_nth_length {T : Type} (i : nat) (v : T) (l : list T) :
  length (set_nth i v l) = length l.
Proof.
  revert i; induction l as [|a l IH]; intros [|i]; cbn [set_nth length];
    try reflexivity.
  now rewrite IH.
Qed.

Lemma nth_error_set_nth_same {T : Type} (i : nat) (v : T) (l : list T) :
  i < length l -> nth_error (set_nth i v l) i = Some v.
Proof.
  revert i; induction l as [|a l IH]; intros [|i] Hi; cbn [set_nth length] in *;
    try lia; [reflexivity|].
  cbn [nth_error]. apply IH. lia.
Qed.

Lemma nth_error_set_nth_other {T : Type} (i k : nat) (v : T) (l : list T) :
  i <> k -> nth_error (set_nth i v l) k = nth_error l k.
Proof.
  revert i k; induction l as [|a l IH]; intros [|i] [|k] Hik; cbn [set_nth];
    try reflexivity; try lia.
  cbn [nth_error]. apply IH. lia.
Qed.

Lemma dims_row (g : list (list A)) (rows cols i : nat) :
  dims g rows cols -> i < rows ->
  exists row, nth_error g i = Some row /\ length row = cols.
Proof.
  intros [Hl Hf] Hi.
  destruct (nth_error g i) as [row|] eqn:E;
    [|apply nth_error_None in E; lia].
  exists row. split; [reflexivity|].
  rewrite Forall_forall in Hf. apply Hf. eapply nth_error_In; exact E.
Qed.

Lemma setitem2_ok (g : list (list A)) (rows cols i j : nat) (v : A) :
  dims g rows cols -> i < rows -> j < cols ->
  exists g',
    setitem2 g i j v = Ok g' /\
    dims g' rows cols /\
    getitem2 g' i j = Ok v /\
    forall i' j', i' <> i \/ j' <> j -> getitem2 g' i' j' = getitem2 g i' j'.
Proof.
  intros D Hi Hj.
  destruct (dims_row g rows cols i D Hi) as (row & Er & Lr).
  destruct D as [Hl Hf].
  unfold setitem2. rewrite Er, Lr, (proj2 (Nat.ltb_lt j cols) Hj).
  eexists. split; [reflexivity|]. split; [|split].
  - split; [now rewrite set_nth_length|].
    apply Forall_forall. intros r Hr.
    apply In_nth_error in Hr. destruct Hr as [k Hk].
    destruct (Nat.eq_dec i k) as [<-|N].
    + rewrite nth_error_set_nth_same in Hk by lia. injection Hk as <-.
      now rewrite set_nth_length.
    + rewrite nth_error_set_nth_other in Hk by assumption.
      rewrite Forall_forall in Hf. apply Hf. eapply nth_error_In; exact Hk.
  - unfold getitem2. rewrite nth_error_set_nth_same by lia.
    unfold getitem. rewrite nth_error_set_nth_same by lia. reflexivity.
  - intros i' j' N. unfold getitem2.
    destruct (Nat.eq_dec i i') as [<-|Ni].
    + rewrite nth_error_set_nth_same, Er by lia.
      unfold getitem. rewrite nth_error_set_nth_other by lia. reflexivity.
    + rewrite nth_error_set_nth_other by assumption. reflexivity.
Qed.

Lemma np_zeros_dims (rows cols : nat) : dims (np_zeros rows cols) rows cols.
Proof.
  unfold np_zeros. split; [apply repeat_length|].
  apply Forall_forall. intros r Hr. apply repeat_spec in Hr. subst r.
  apply repeat_length.
Qed.

Lemma nth_error_repeat_lt {T : Type} (a : T) (n i : nat) :
  i < n -> nth_error (repeat a n) i = Some a.
Proof.
  revert i; induction n as [|n IH]; intros [|i] Hi; cbn [repeat nth_error];
    try lia; [reflexivity|].
  apply IH. lia.
Qed.

Lemma np_zeros_entry (rows cols i j : nat) :
  i < rows -> j < cols -> getitem2 (np_zeros rows cols) i j = Ok (lit 0).
Proof.
  intros Hi Hj. unfold getitem2, np_zeros, getitem.
  rewrite nth_error_repeat_lt by assumption.
  rewrite nth_error_repeat_lt by assumption. reflexivity.
Qed.

Variables (rows cols : nat) (x y : list A).
Hypothesis shapes : compatible x y.

Lemma L_total (w : vec A) : exists v, L w x y = Ok v.
Proof.
  unfold L. destruct (residual_total w x y shapes) as [r ->].
  cbn [rbind]. eauto.
Qed.

(** One row: the columns [j0 ..] receive the costs, everything else
    stays. *)
Lemma grid_row (i : nat) (w1 : A) (ws : list A) :
  forall (j0 : nat) (g : list (list A)),
    dims g rows cols -> i < rows -> j0 + length ws <= cols ->
    exists g',
      rfor (combine (seq j0 (length ws)) ws)
           (fun '(j, w0) L_grid =>
              rbind (L (w0, w1) x y) (fun v => setitem2 L_grid i j v)) g
      = Ok g' /\
      dims g' rows cols /\
      (forall k w0, nth_error ws k = Some w0 ->
         exists v, L (w0, w1) x y = Ok v /\ getitem2 g' i (j0 + k) = Ok v) /\
      (forall i' j', i' <> i \/ j' < j0 \/ j0 + length ws <= j' ->
         getitem2 g' i' j' = getitem2 g i' j').
Proof.
  induction ws as [|w0 ws IH]; intros j0 g D Hi Hc; cbn [length seq combine rfor].
  - exists g. split; [reflexivity|]. split; [exact D|].
    split; [intros [|k] w0 E; discriminate E | reflexivity].
  - cbn [length] in Hc.
    destruct (L_total (w0, w1)) as [v Ev]. rewrite Ev. cbn [rbind].
    destruct (setitem2_ok g rows cols i j0 v D Hi ltac:(lia))
      as (g1 & E1 & D1 & G1 & F1).
    rewrite E1.
    destruct (IH (S j0) g1 D1 Hi ltac:(lia)) as (g' & E' & D' & G' & F').
    exists g'. split; [exact E'|]. split; [exact D'|]. split.
    + intros [|k] w0' Ek; cbn [nth_error] in Ek.
      * injection Ek as <-. exists v. split; [exact Ev|].
        rewrite Nat.add_0_r. rewrite F' by lia. exact G1.
      * destruct (G' k w0' Ek) as (v' & Ev' & Eg').
        exists v'. split; [exact Ev'|].
        replace (j0 + S k) with (S j0 + k) by lia. exact Eg'.
    + intros i' j' N. rewrite F' by lia. apply F1. lia.
Qed.

(** All rows [i0 ..]. *)
Lemma grid_rows (w0s : list A) (w1l : list A) :
  length w0s <= cols ->
  forall (i0 : nat) (g : list (list A)),
    dims g rows cols -> i0 + length w1l <= rows ->
    exists g',
      rfor (combine (seq i0 (length w1l)) w1l)
           (fun '(i, w1) L_grid =>
              rfor (enumerate w0s)
                   (fun '(j, w0) L_grid =>
                      rbind (L (w0, w1) x y) (fun v => setitem2 L_grid i j v))
                   L_grid) g
      = Ok g' /\
      dims g' rows cols /\
      (forall k w1 j w0,
         nth_error w1l k = Some w1 -> nth_error w0s j = Some w0 ->
         exists v, L (w0, w1) x y = Ok v /\ getitem2 g' (i0 + k) j = Ok v) /\
      (forall i' j', i' < i0 \/ i0 + length w1l <= i' \/ length w0s <= j' ->
         getitem2 g' i' j' = getitem2 g i' j').
Proof.
  intros Hc. induction w1l as [|w1 w1l IH]; intros i0 g D Hr;
    cbn [length seq combine rfor].
  - exists g. split; [reflexivity|]. split; [exact D|].
    split; [intros [|k] w1 j w0 E; discriminate E | reflexivity].
  - cbn [length] in Hr.
    destruct (grid_row i0 w1 w0s 0 g D ltac:(lia) ltac:(lia))
      as (g1 & E1 & D1 & G1 & F1).
    unfold enumerate. rewrite E1. cbn [rbind].
    destruct (IH (S i0) g1 D1 ltac:(lia)) as (g' & E' & D' & G' & F').
    exists g'. split; [exact E'|]. split; [exact D'|]. split.
    + intros [|k] w1' j w0 Ek Ej; cbn [nth_error] in Ek.
      * injection Ek as <-.
        destruct (G1 j w0 Ej) as (v & Ev & Eg). exists v. split; [exact Ev|].
        rewrite Nat.add_0_r. rewrite F' by lia. exact Eg.
      * destruct (G' k w1' j w0 Ek Ej) as (v & Ev & Eg).
        exists v. split; [exact Ev|].
        replace (i0 + S k) with (S i0 + k) by lia. exact Eg.
    + intros i' j' N. rewrite F' by lia. apply F1. lia.
Qed.
End GridFacts.

(** X16.  For any arithmetic, on data of compatible shapes and a grid
    that is large enough: the loss-surface cell returns a [rows] by
    [cols] array whose entry [[i, j]] is the cost at intercept [w0s[j]]
    and slope [w1s[i]], rows being indexed by the slope, and whose
    entries outside the two ranges are still the zeros of [np.zeros]. *)
Theorem loss_grid_entries {A : Type} {NA : Num A}
    (rows cols : nat) (w0s w1s x y : list A) :
  compatible x y ->
  length w1s <= rows ->
  length w0s <= cols ->
  exists L_grid,
    loss_grid rows cols w0s w1s x y = Ok L_grid /\
    length L_grid = rows /\
    Forall (fun row => length row = cols) L_grid /\
    (forall i j w1 w0,
       nth_error w1s i = Some w1 -> nth_error w0s j = Some w0 ->
       exists v, L (w0, w1) x y = Ok v /\ getitem2 L_grid i j = Ok v) /\
    (forall i j, i < rows -> j < cols ->
       length w1s <= i \/ length w0s <= j ->
       getitem2 L_grid i j = Ok (lit 0)).
Proof.
  intros C Hr Hc.
  destruct (grid_rows rows cols x y C w0s w1s Hc 0 (np_zeros rows cols)
              (np_zeros_dims rows cols) ltac:(lia))
    as (g & E & [Dl Df] & G & F).
  exists g. split; [exact E|]. split; [exact Dl|]. split; [exact Df|]. split.
  - intros i j w1 w0 Ei Ej. exact (G i w1 j w0 Ei Ej).
  - intros i j Hi Hj N. rewrite F by lia. now apply np_zeros_entry.
Qed.

Lemma loss_grid_entries_witness :
  let x := scenario_x (A:=PrimFloat.float) in
  let y := scenario_y (A:=PrimFloat.float) in
  let w0s := [lit 0; lit 1] : list PrimFloat.float in
  let w1s := [lit 0; lit 1] : list PrimFloat.float in
  compatible x y /\ length w1s <= 2 /\ length w0s <= 3 /\
  exists L_grid,
    loss_grid 2 3 w0s w1s x y = Ok L_grid /\
    length L_grid = 2 /\
    Forall (fun row => length row = 3) L_grid /\
    (forall i j w1 w0,
       nth_error w1s i = Some w1 -> nth_error w0s j = Some w0 ->
       exists v, L (w0, w1) x y = Ok v /\ getitem2 L_grid i j = Ok v) /\
    (forall i j, i < 2 -> j < 3 ->
       length w1s <= i \/ length w0s <= j ->
       getitem2 L_grid i j = Ok (lit 0)).
Proof.
  intros x y w0s w1s.
  assert (C : compatible x y) by (left; reflexivity).
  assert (Hr : length w1s <= 2) by (cbn [w1s length]; lia).
  assert (Hc : length w0s <= 3) by (cbn [w0s length]; lia).
  split; [exact C|]. split; [exact Hr|]. split; [exact Hc|].
  exact (loss_grid_entries 2 3 w0s w1s x y C Hr Hc).
Defined.

Lemma np_linspace_length {A : Type} {NA : Num A} (start stop : A) (num : nat) :
  length (np_linspace start stop num) = num.
Proof.
  destruct num as [|[|n]]; try reflexivity.
  unfold np_linspace. rewrite length_app, length_map, length_seq.
  cbn [length]. lia.
Qed.

Lemma np_linspace_last {A : Type} {NA : Num A} (start stop : A) (n : nat) :
  nth_error (np_linspace start stop (S (S n))) (S n) = Some stop.
Proof.
  unfold np_linspace.
  rewrite nth_error_app2 by (rewrite length_map, length_seq; lia).
  rewrite length_map, length_seq, Nat.sub_diag. reflexivity.
Qed.

(** X17.  For any arithmetic, on data of compatible shapes: the
    notebook's own grid is filled completely.  [L_grid] is a 101 by 101
    array, each entry [[i, j]] is the cost at the [j]-th of the 101
    intercepts and the [i]-th of the 101 slopes, no zero of [np.zeros] is
    left over, and the last entry [[100, 100]] is the cost at exactly
    [(1.5, 1)], the end points of the two ranges. *)
Theorem L_grid_cell_is_filled {A : Type} {NA : Num A} (x y : list A) :
  compatible x y ->
  exists L_grid,
    L_grid_cell x y = Ok L_grid /\
    length L_grid = 101 /\
    Forall (fun row => length row = 101) L_grid /\
    (forall i j, i < 101 -> j < 101 ->
       exists w0 w1 v,
         nth_error (np_linspace (lit 0) (lit 1.5) 101) j = Some w0 /\
         nth_error (np_linspace (lit 0) (lit 1) 101) i = Some w1 /\
         L (w0, w1) x y = Ok v /\
         getitem2 L_grid i j = Ok v) /\
    (exists v, L (lit 1.5, lit 1) x y = Ok v /\
               getitem2 L_grid 100 100 = Ok v).
Proof.
  intros C. unfold L_grid_cell, loss_grid, enumerate at 1.
  set (w0s := np_linspace (lit 0) (lit 1.5) 101).
  set (w1s := np_linspace (lit 0) (lit 1) 101).
  assert (L0 : length w0s = 101) by apply np_linspace_length.
  assert (L1 : length w1s = 101) by apply np_linspace_length.
  destruct (grid_rows 101 101 x y C w0s w1s ltac:(lia) 0 (np_zeros 101 101)
              (np_zeros_dims 101 101) ltac:(lia))
    as (g & E & [Dl Df] & G & _).
  exists g. split; [exact E|]. split; [exact Dl|]. split; [exact Df|]. split.
  - intros i j Hi Hj.
    destruct (nth_error w0s j) as [w0|] eqn:E0;
      [|apply nth_error_None in E0; lia].
    destruct (nth_error w1s i) as [w1|] eqn:E1;
      [|apply nth_error_None in E1; lia].
    destruct (G i w1 j w0 E1 E0) as (v & Ev & Eg).
    exists w0, w1, v. repeat split; assumption.
  - apply (G 100 (lit 1) 100 (lit 1.5)); apply np_linspace_last.
Qed.

Lemma L_grid_cell_is_filled_witness :
  let x := scenario_x (A:=PrimFloat.float) in
  let y := scenario_y (A:=PrimFloat.float) in
  compatible x y /\
  exists L_grid,
    L_grid_cell x y = Ok L_grid /\
    length L_grid = 101 /\
    Forall (fun row => length row = 101) L_grid /\
    (forall i j, i < 101 -> j < 101 ->
       exists w0 w1 v,
         nth_error (np_linspace (lit 0) (lit 1.5) 101) j = Some w0 /\
         nth_error (np_linspace (lit 0) (lit 1) 101) i = Some w1 /\
         L (w0, w1) x y = Ok v /\
         getitem2 L_grid i j = Ok v) /\
    (exists v, L (lit 1.5, lit 1) x y = Ok v /\
               getitem2 L_grid 100 100 = Ok v).
Proof.
  intros x y.
  assert (C : compatible x y) by (left; reflexivity).
  split; [exact C|].
  exact (L_grid_cell_is_filled x y C).
Defined.
